(** * Reporting plugin: staged asynchronous bring-up

    A shallow embedding of [x-pack/plugins/reporting/server/plugin.ts].

    The class [ReportingPlugin] has two host-facing methods, [setup] and
    [start].  Each runs a synchronous part, fires an [async] arrow function
    whose rejection is handled by a [.catch] callback, and returns.  The
    embedding keeps JavaScript's run-to-completion discipline: a host call or
    the settlement of an awaited promise runs one synchronous segment, after
    which the pending microtasks run.  A chronological record of the calls
    the plugin performs is kept next to the program state so that ordering
    properties can be stated. *)

From stdpp Require Import base list strings option sets gmap.
From Stdlib Require Import Lia.

(** ** Values exchanged with the collaborators *)

(** [ReportingConfigType], the browser driver factory and the queue are
    opaque to [plugin.ts]; a number stands for each value. *)
Definition Config := nat.
Definition BrowserDriverFactory := nat.
Definition ESQueue := nat.

(** What a [throw] or a rejected promise carries. *)
Inductive Error :=
| TypeError (msg : string)
| ConfigNotInitialized
| Rejection (code : nat).

(** Lines written through [this.logger]. *)
Inductive LogEntry :=
| LogDebug (msg : string)
| LogError (msg : string)
| LogErrorObject (e : Error).

(** ** ReportingCore *)

(** Modelled from the spec: the states of the lifecycle of a controller. *)
Inductive LifecycleState :=
| Constructed
| SetupInProgress
| SetupComplete
| StartInProgress
| Ready
| Failed.

Global Instance LifecycleState_eq_dec : EqDecision LifecycleState.
Proof. solve_decision. Defined.

(** Modelled from the spec: the class [ReportingCore], which [plugin.ts]
    imports from ['./'] and whose definition is in another file.  It holds
    the one [LifecycleState] of a controller and the [Config], which is
    absent until resolved. *)
Record ReportingCore := {
  lifecycle : LifecycleState;
  config : option Config;
}.

(** Modelled from the spec: [new ReportingCore(logger, initContext)]; a fresh
    controller is [Constructed] and has no Config. *)
Definition newReportingCore : ReportingCore :=
  {| lifecycle := Constructed; config := None |}.

(** Modelled from the spec: [ReportingCore.pluginSetup], called from the
    synchronous part of [setup]; the setup phase is under way. *)
Definition pluginSetup (c : ReportingCore) : ReportingCore :=
  {| lifecycle := SetupInProgress; config := config c |}.

(** Modelled from the spec: [ReportingCore.setConfig]; Config is resolved. *)
Definition setConfig (cfg : Config) (c : ReportingCore) : ReportingCore :=
  {| lifecycle := lifecycle c; config := Some cfg |}.

(** Modelled from the spec: [ReportingCore.registerFeature] when it returns
    normally; the spec places [SetupComplete] right after the registration,
    and no later call of the setup task reaches the core. *)
Definition registerFeature (c : ReportingCore) : ReportingCore :=
  {| lifecycle := SetupComplete; config := config c |}.

(** Modelled from the spec: the promise of [ReportingCore.pluginSetsUp] is
    fulfilled once the lifecycle has reached [SetupComplete]. *)
Definition pluginSetsUp (c : ReportingCore) : bool :=
  match lifecycle c with
  | SetupComplete | StartInProgress | Ready => true
  | Constructed | SetupInProgress | Failed => false
  end.

(** Modelled from the spec: [ReportingCore.getConfig]; reading Config before
    it is resolved is an error. *)
Definition getConfig (c : ReportingCore) : Error + Config :=
  match config c with
  | Some cfg => inr cfg
  | None => inl ConfigNotInitialized
  end.

(** Modelled from the spec: [ReportingCore.pluginStart]; on success of the
    start phase the lifecycle is [Ready]. *)
Definition pluginStart (c : ReportingCore) : ReportingCore :=
  {| lifecycle := Ready; config := config c |}.

(** Modelled from the spec: [ReportingCore.pluginIsStarted], the readiness
    query: true iff the lifecycle is [Ready]. *)
Definition pluginIsStarted (c : ReportingCore) : bool :=
  bool_decide (lifecycle c = Ready).

(** Modelled from the spec: a [StartContract] is an object handed to the
    host; what matters here is its identity.  Each core owns one, named
    after the address of the core. *)
Inductive StartContract := ContractOf (core : nat).

Global Instance StartContract_eq_dec : EqDecision StartContract.
Proof. solve_decision. Defined.

(** Modelled from the spec: [ReportingCore.getStartContract] hands out the
    same reference at every call on the same core. *)
Definition getStartContract (k : nat) : StartContract := ContractOf k.

(** ** Program state *)

(** Calls performed by the plugin, in the order of the source. *)
Inductive Event :=
| ENewReportingCore (k : nat)                  (* line 35 *)
| ERegisterRouteHandlerContext (k : nat)       (* line 39 *)
| ERegisterUiSettings                          (* line 48 *)
| ECreateRouter                                (* line 53 *)
| EPluginSetup (k : nat)                       (* line 56 *)
| ERegisterReportingUsageCollector (k : nat)   (* line 66 *)
| ERegisterRoutes (k : nat)                    (* line 67 *)
| EBuildConfig (k : nat)                       (* line 71, the call *)
| ESetConfig (k : nat) (cfg : Config)          (* line 72 *)
| ERegisterFeature (k : nat)                   (* line 74 *)
| ESetupComplete (k : nat)                     (* line 75 *)
| ESetFieldFormats                             (* line 87 *)
| EPluginSetsUp (k : nat)                      (* line 92, the call *)
| EGetConfig (k : nat)                         (* line 93 *)
| EInitializeBrowserDriverFactory (k : nat) (cfg : Config) (* line 95 *)
| ENewReportingStore (k : nat)                 (* line 96 *)
| ECreateQueueFactory (k : nat)                (* line 97, starts polling *)
| EPluginStart (k : nat)                       (* line 104 *)
| EStartComplete (k : nat).                    (* line 115 *)

Global Instance Event_eq_dec : EqDecision Event.
Proof. solve_decision. Defined.

(** The async arrow function of [setup] has one suspension point. *)
Inductive SetupTask :=
| SetupAwaitsBuildConfig        (* suspended at line 71 *)
| SetupSettled.

(** The async arrow function of [start] has three suspension points; the
    constructors carry the local variables that are live across them. *)
Inductive StartTask :=
| StartAwaitsPluginSetsUp (k : nat)                                   (* line 92 *)
| StartAwaitsBrowserDriverFactory (k : nat) (cfg : Config)            (* line 95 *)
| StartAwaitsQueueFactory (k : nat) (bdf : BrowserDriverFactory)      (* line 97 *)
| StartSettled.

(** The plugin object ([logger], [reportingCore]), the cores allocated so far
    (a reference is an index into [heap]), the background tasks and the
    record of calls.  The [k]-th setup task belongs to the [setup] call that
    allocated core [k]. *)
Record World := {
  logger : list LogEntry;
  reportingCore : option nat;
  heap : list ReportingCore;
  setupTasks : list SetupTask;
  startTasks : list StartTask;
  calls : list Event;
}.

Definition init : World :=
  {| logger := []; reportingCore := None; heap := [];
     setupTasks := []; startTasks := []; calls := [] |}.

Definition log (e : LogEntry) (w : World) : World :=
  {| logger := logger w ++ [e]; reportingCore := reportingCore w;
     heap := heap w; setupTasks := setupTasks w;
     startTasks := startTasks w; calls := calls w |}.

Definition emit (e : Event) (w : World) : World :=
  {| logger := logger w; reportingCore := reportingCore w;
     heap := heap w; setupTasks := setupTasks w;
     startTasks := startTasks w; calls := calls w ++ [e] |}.

Definition setReportingCore (k : nat) (w : World) : World :=
  {| logger := logger w; reportingCore := Some k;
     heap := heap w; setupTasks := setupTasks w;
     startTasks := startTasks w; calls := calls w |}.

Definition alloc (c : ReportingCore) (w : World) : World :=
  {| logger := logger w; reportingCore := reportingCore w;
     heap := heap w ++ [c]; setupTasks := setupTasks w;
     startTasks := startTasks w; calls := calls w |}.

(** A method call on the core at address [k] that changes its state. *)
Definition onCore (k : nat) (f : ReportingCore -> ReportingCore) (w : World) : World :=
  {| logger := logger w; reportingCore := reportingCore w;
     heap := match heap w !! k with
             | Some c => <[k := f c]> (heap w)
             | None => heap w
             end;
     setupTasks := setupTasks w;
     startTasks := startTasks w; calls := calls w |}.

Definition spawnSetup (w : World) : World :=
  {| logger := logger w; reportingCore := reportingCore w;
     heap := heap w; setupTasks := setupTasks w ++ [SetupAwaitsBuildConfig];
     startTasks := startTasks w; calls := calls w |}.

Definition spawnStart (t : StartTask) (w : World) : World :=
  {| logger := logger w; reportingCore := reportingCore w;
     heap := heap w; setupTasks := setupTasks w;
     startTasks := startTasks w ++ [t]; calls := calls w |}.

Definition setSetupTask (k : nat) (t : SetupTask) (w : World) : World :=
  {| logger := logger w; reportingCore := reportingCore w;
     heap := heap w; setupTasks := <[k := t]> (setupTasks w);
     startTasks := startTasks w; calls := calls w |}.

Definition setStartTask (i : nat) (t : StartTask) (w : World) : World :=
  {| logger := logger w; reportingCore := reportingCore w;
     heap := heap w; setupTasks := setupTasks w;
     startTasks := <[i := t]> (startTasks w); calls := calls w |}.

(** ** What the host and the collaborators do *)

(** The host calls [setup], [start], or the route handler context callback
    registered by the [k]-th [setup]; a collaborator settles a promise the
    plugin awaits.  [BuildConfigSettles k r reg] settles the [buildConfig]
    promise of the [k]-th setup task with [r]; [reg] tells how
    [registerFeature] behaves in that task: [None] when it returns, [Some e]
    when it throws [e]. *)
Inductive Input :=
| HostSetup
| HostStart
| HostRequest (k : nat)
| BuildConfigSettles (k : nat) (r : Error + Config) (reg : option Error)
| BrowserDriverFactorySettles (i : nat) (r : Error + BrowserDriverFactory)
| QueueFactorySettles (i : nat) (r : Error + ESQueue).

(** What the caller of a segment gets back. *)
Inductive Outcome :=
| Returned (c : StartContract)          (* [setup] and [start] *)
| Threw (e : Error)                     (* an exception on the caller's stack *)
| Provided (c : option StartContract)   (* the route handler context; [None] is [null] *)
| Resumed                               (* a task continued; nobody is called back *)
| Ignored.                              (* nothing was waiting for this input *)

(** ** ReportingPlugin.setup *)

(** Lines 76-79: the [.catch] callback of the background setup. *)
Definition setupCatch (e : Error) (w : World) : World :=
  let w := log (LogError "Error in Reporting setup, reporting may not function properly") w in
  log (LogErrorObject e) w.

(** Lines 34-83 up to the first [await].  The arrow function of line 70 is
    entered at once and suspends on [buildConfig]. *)
Definition setup (w : World) : World * Outcome :=
  let k := length (heap w) in
  let w := emit (ENewReportingCore k) (alloc newReportingCore w) in
  let w := emit (ERegisterRouteHandlerContext k) w in
  let w := emit ERegisterUiSettings w in
  let w := emit ECreateRouter w in
  let w := emit (EPluginSetup k) (onCore k pluginSetup w) in
  let w := emit (ERegisterReportingUsageCollector k) w in
  let w := emit (ERegisterRoutes k) w in
  let w := emit (EBuildConfig k) (spawnSetup w) in
  let w := setReportingCore k w in
  (w, Returned (getStartContract k)).

(** Lines 71-75 after the [await]: the body of the background setup from the
    settlement of [buildConfig] on, with the exception that leaves it, if
    any. *)
Definition setupResume (k : nat) (r : Error + Config) (reg : option Error)
    (w : World) : World * option Error :=
  match r with
  | inl e => (w, Some e)
  | inr cfg =>
      let w := emit (ESetConfig k cfg) (onCore k (setConfig cfg) w) in
      let w := emit (ERegisterFeature k) w in
      match reg with
      | Some e => (w, Some e)
      | None =>
          let w := onCore k registerFeature w in
          let w := emit (ESetupComplete k) (log (LogDebug "Setup complete") w) in
          (w, None)
      end
  end.

(** The background setup with its [.catch]. *)
Definition setupTask (k : nat) (r : Error + Config) (reg : option Error)
    (w : World) : World :=
  let w := setSetupTask k SetupSettled w in
  match setupResume k r reg w with
  | (w, Some e) => setupCatch e w
  | (w, None) => w
  end.

(** Lines 39-46: the callback given to [registerRouteHandlerContext] by the
    [setup] call that allocated core [k]. *)
Definition routeHandlerContext (k : nat) (c : ReportingCore) (w : World)
    : World * Outcome :=
  if pluginIsStarted c then
    (w, Provided (Some (getStartContract k)))
  else
    (log (LogError "Reporting features are not yet ready") w, Provided None).

(** ** ReportingPlugin.start *)

(** Lines 116-119: the [.catch] callback of the background start. *)
Definition startCatch (e : Error) (w : World) : World :=
  let w := log (LogError "Error in Reporting start, reporting may not function properly") w in
  log (LogErrorObject e) w.

Definition undefinedCore (method : string) : Error :=
  TypeError ("Cannot read property '" ++ method ++ "' of undefined")%string.

(** Lines 85-122 up to the first [await].  [this.reportingCore!] is only a
    type assertion: on a plugin that was not set up the local is
    [undefined], the method call of line 92 throws inside the arrow function
    (a rejection, handled by the [.catch] once the caller's stack has
    unwound) and the one of line 121 throws to the caller. *)
Definition start (w : World) : World * Outcome :=
  let w := emit ESetFieldFormats w in
  match reportingCore w with
  | None =>
      let w := spawnStart StartSettled w in
      let w := startCatch (undefinedCore "pluginSetsUp") w in
      (w, Threw (undefinedCore "getStartContract"))
  | Some k =>
      let w := emit (EPluginSetsUp k) (spawnStart (StartAwaitsPluginSetsUp k) w) in
      (w, Returned (getStartContract k))
  end.

(** Lines 93-95: the [i]-th background start, once [pluginSetsUp] is
    fulfilled, up to the [await] on [initializeBrowserDriverFactory]. *)
Definition startAfterSetsUp (i : nat) (w : World) : World :=
  match startTasks w !! i with
  | Some (StartAwaitsPluginSetsUp k) =>
      match heap w !! k with
      | Some c =>
          if pluginSetsUp c then
            let w := emit (EGetConfig k) w in
            match getConfig c with
            | inr cfg =>
                let w := emit (EInitializeBrowserDriverFactory k cfg) w in
                setStartTask i (StartAwaitsBrowserDriverFactory k cfg) w
            | inl e => startCatch e (setStartTask i StartSettled w)
            end
          else w
      | None => w
      end
  | _ => w
  end.

(** Lines 95-97: from the settlement of [initializeBrowserDriverFactory] to
    the [await] on [createQueueFactory]. *)
Definition startAfterBrowserDriverFactory (i k : nat)
    (r : Error + BrowserDriverFactory) (w : World) : World :=
  match r with
  | inl e => startCatch e (setStartTask i StartSettled w)
  | inr bdf =>
      let w := emit (ENewReportingStore k) w in
      let w := emit (ECreateQueueFactory k) w in
      setStartTask i (StartAwaitsQueueFactory k bdf) w
  end.

(** Lines 97-115: from the settlement of [createQueueFactory] to the end. *)
Definition startAfterQueueFactory (i k : nat) (r : Error + ESQueue)
    (w : World) : World :=
  let w := setStartTask i StartSettled w in
  match r with
  | inl e => startCatch e w
  | inr _ =>
      let w := emit (EPluginStart k) (onCore k pluginStart w) in
      emit (EStartComplete k) (log (LogDebug "Start complete") w)
  end.

(** ** The event loop *)

(** After a synchronous segment the microtasks run: every background start
    whose [pluginSetsUp] promise is fulfilled continues, oldest first. *)
Definition microtasks (w : World) : World :=
  foldl (fun w i => startAfterSetsUp i w) w (seq 0 (length (startTasks w))).

(** One synchronous segment, chosen by the input. *)
Definition react (i : Input) (w : World) : World * Outcome :=
  match i with
  | HostSetup => setup w
  | HostStart => start w
  | HostRequest k =>
      match heap w !! k with
      | Some c => routeHandlerContext k c w
      | None => (w, Ignored)
      end
  | BuildConfigSettles k r reg =>
      match setupTasks w !! k with
      | Some SetupAwaitsBuildConfig => (setupTask k r reg w, Resumed)
      | _ => (w, Ignored)
      end
  | BrowserDriverFactorySettles i r =>
      match startTasks w !! i with
      | Some (StartAwaitsBrowserDriverFactory k _) =>
          (startAfterBrowserDriverFactory i k r w, Resumed)
      | _ => (w, Ignored)
      end
  | QueueFactorySettles i r =>
      match startTasks w !! i with
      | Some (StartAwaitsQueueFactory k _) =>
          (startAfterQueueFactory i k r w, Resumed)
      | _ => (w, Ignored)
      end
  end.

Definition step (i : Input) (w : World) : World * Outcome :=
  let (w', o) := react i w in (microtasks w', o).

(** The world after a sequence of inputs, and what the last of them got. *)
Definition run (inputs : list Input) (w : World) : World :=
  foldl (fun w i => (step i w).1) w inputs.

Definition outcome (inputs : list Input) (i : Input) : Outcome :=
  (step i (run inputs init)).2.

(** Modelled from the spec: the [LifecycleState] of the controller whose
    core is at address [k], if allocated. *)
Definition lifecycleOf (k : nat) (w : World) : option LifecycleState :=
  lifecycle <$> heap w !! k.

(** A readiness check on core [k]. *)
Definition isReady (k : nat) (w : World) : bool :=
  match heap w !! k with
  | Some c => pluginIsStarted c
  | None => false
  end.

(** ** Ordering of calls *)

(** Every occurrence of [b] in the record has an [a] before it. *)
Definition precedes (a b : Event) (tr : list Event) : Prop :=
  forall pre post, tr = pre ++ b :: post -> a ∈ pre.

(** What must already have happened when a call is made. *)
Definition req (e : Event) (pre : list Event) : Prop :=
  match e with
  | ESetConfig k _ =>
      EBuildConfig k ∈ pre /\ forall cfg, ESetConfig k cfg ∉ pre
  | ERegisterFeature k =>
      (exists cfg, ESetConfig k cfg ∈ pre) /\ ERegisterFeature k ∉ pre
  | ESetupComplete k => ERegisterFeature k ∈ pre
  | EGetConfig k => ESetupComplete k ∈ pre /\ EPluginSetsUp k ∈ pre
  | EInitializeBrowserDriverFactory k cfg =>
      EGetConfig k ∈ pre /\ ESetConfig k cfg ∈ pre
  | ENewReportingStore k =>
      exists cfg, EInitializeBrowserDriverFactory k cfg ∈ pre
  | ECreateQueueFactory k => ENewReportingStore k ∈ pre
  | EPluginStart k => ECreateQueueFactory k ∈ pre
  | EStartComplete k => EPluginStart k ∈ pre
  | _ => True
  end.

(** A record in which every call found its prerequisites. *)
Inductive Chronicle : list Event -> Prop :=
| chronicle_nil : Chronicle []
| chronicle_snoc tr e : Chronicle tr -> req e tr -> Chronicle (tr ++ [e]).

(** ** Invariants of the reachable worlds *)

(** What the state of a background start says about the record of calls. *)
Definition startTaskOk (w : World) (t : StartTask) : Prop :=
  match t with
  | StartAwaitsPluginSetsUp k =>
      k < length (heap w) /\ EPluginSetsUp k ∈ calls w
  | StartAwaitsBrowserDriverFactory k cfg =>
      EInitializeBrowserDriverFactory k cfg ∈ calls w
  | StartAwaitsQueueFactory k _ =>
      ECreateQueueFactory k ∈ calls w /\ k < length (heap w)
  | StartSettled => True
  end.

(** What the state of a core says about the record of calls and about its
    background setup. *)
Definition coreOk (w : World) (k : nat) (c : ReportingCore) : Prop :=
  (lifecycle c = SetupInProgress \/ lifecycle c = SetupComplete \/ lifecycle c = Ready)
  /\ (pluginSetsUp c = true -> ESetupComplete k ∈ calls w /\ is_Some (config c))
  /\ (lifecycle c = Ready -> EPluginStart k ∈ calls w)
  /\ (setupTasks w !! k = Some SetupAwaitsBuildConfig ->
        config c = None /\ lifecycle c = SetupInProgress)
  /\ (forall cfg, config c = Some cfg -> ESetConfig k cfg ∈ calls w)
  /\ EBuildConfig k ∈ calls w.

Record Inv (w : World) : Prop := {
  inv_tasks : length (setupTasks w) = length (heap w);
  inv_this : forall k, reportingCore w = Some k -> k < length (heap w);
  inv_calls : Chronicle (calls w);
  inv_core : forall k c, heap w !! k = Some c -> coreOk w k c;
  inv_config : forall k cfg, ESetConfig k cfg ∈ calls w ->
                 exists c, heap w !! k = Some c /\ config c = Some cfg;
  inv_complete : forall k, ESetupComplete k ∈ calls w ->
                   exists c, heap w !! k = Some c /\ pluginSetsUp c = true;
  inv_start : forall i t, startTasks w !! i = Some t -> startTaskOk w t;
}.

(** No background start is runnable: the microtask queue is empty. *)
Definition Quiescent (w : World) : Prop :=
  forall i k, startTasks w !! i = Some (StartAwaitsPluginSetsUp k) ->
    exists c, heap w !! k = Some c /\ pluginSetsUp c = false.

(** ** Vocabulary of the statements *)

(** Calls that neither resolve Config nor complete a setup. *)
Definition startCall (e : Event) : Prop :=
  match e with
  | ESetConfig _ _ | ESetupComplete _ => False
  | _ => True
  end.

(** The steps of the background start of core [k] that come after its
    [await reportingCore.pluginSetsUp()]: lines 93 to 115. *)
Definition startStep (e : Event) : option nat :=
  match e with
  | EGetConfig k
  | EInitializeBrowserDriverFactory k _
  | ENewReportingStore k
  | ECreateQueueFactory k
  | EPluginStart k
  | EStartComplete k => Some k
  | _ => None
  end.

(** Is the input a call of [setup]? *)
Definition isHostSetup (i : Input) : bool :=
  match i with HostSetup => true | _ => false end.

(** Number of [setup] calls among the inputs. *)
Definition setupCalls (inputs : list Input) : nat :=
  length (filter isHostSetup inputs).

(** The cores on which [registerFeature] was invoked, one entry per
    invocation. *)
Definition registrations (tr : list Event) : list nat :=
  omap (fun e => match e with ERegisterFeature k => Some k | _ => None end) tr.

(** The two background tasks have a [.catch] callback each. *)
Inductive Phase := SetupPhase | StartPhase.

(** Lines 77 and 117: the first line that the callback logs. *)
Definition phaseMessage (ph : Phase) : string :=
  match ph with
  | SetupPhase => "Error in Reporting setup, reporting may not function properly"
  | StartPhase => "Error in Reporting start, reporting may not function properly"
  end.

(** The exception, if any, that leaves the body of a background task in the
    segment that input [i] triggers in world [w], with the phase of the
    task: a rejection of the awaited promise (lines 71, 95, 97), a throw of
    [registerFeature] (line 74), or the method call on the absent core
    (line 92). *)
Definition raises (i : Input) (w : World) : option (Phase * Error) :=
  match i with
  | HostStart =>
      match reportingCore w with
      | None => Some (StartPhase, undefinedCore "pluginSetsUp")
      | Some _ => None
      end
  | BuildConfigSettles k r reg =>
      match setupTasks w !! k with
      | Some SetupAwaitsBuildConfig =>
          match r, reg with
          | inl e, _ => Some (SetupPhase, e)
          | inr _, Some e => Some (SetupPhase, e)
          | inr _, None => None
          end
      | _ => None
      end
  | BrowserDriverFactorySettles j (inl e) =>
      match startTasks w !! j with
      | Some (StartAwaitsBrowserDriverFactory _ _) => Some (StartPhase, e)
      | _ => None
      end
  | QueueFactorySettles j (inl e) =>
      match startTasks w !! j with
      | Some (StartAwaitsQueueFactory _ _) => Some (StartPhase, e)
      | _ => None
      end
  | _ => None
  end.

(** The background setup of core [k] has settled without completing. *)
Definition Stuck (k : nat) (w : World) : Prop :=
  setupTasks w !! k = Some SetupSettled
  /\ exists c, heap w !! k = Some c /\ lifecycle c = SetupInProgress.

(** How far a lifecycle has come; [Failed] is terminal. *)
Definition rank (l : LifecycleState) : nat :=
  match l with
  | Constructed => 0
  | SetupInProgress => 1
  | SetupComplete => 2
  | StartInProgress => 3
  | Ready => 4
  | Failed => 5
  end.

(** The Config held by the core at address [k], if any. *)
Definition configOf (k : nat) (w : World) : option Config :=
  heap w !! k ≫= config.

(** Lines 35-67: what [setup] does for the core it allocates at address [k]
    before it starts to resolve Config. *)
Definition setupPrelude (k : nat) : list Event :=
  [ENewReportingCore k; ERegisterRouteHandlerContext k; ERegisterUiSettings;
   ECreateRouter; EPluginSetup k; ERegisterReportingUsageCollector k;
   ERegisterRoutes k].

(** The cores for which [buildConfig] was called, one entry per call. *)
Definition buildConfigs (tr : list Event) : list nat :=
  omap (fun e => match e with EBuildConfig k => Some k | _ => None end) tr.

(** Every [buildConfig] call in the record comes right after the prelude of
    the same core. *)
Definition PreludeFirst (tr : list Event) : Prop :=
  forall pre post k, tr = pre ++ EBuildConfig k :: post ->
    exists pre', pre = pre' ++ setupPrelude k.

(** A run in which every collaborator succeeds. *)
Definition happyPath : list Input :=
  [HostSetup; HostStart; BuildConfigSettles 0 (inr 7) None;
   BrowserDriverFactorySettles 0 (inr 3); QueueFactorySettles 0 (inr 5)].

(** The record of calls of [happyPath], cut before the read of Config. *)
Definition happyPrefix : list Event :=
  [ENewReportingCore 0; ERegisterRouteHandlerContext 0; ERegisterUiSettings;
   ECreateRouter; EPluginSetup 0; ERegisterReportingUsageCollector 0;
   ERegisterRoutes 0; EBuildConfig 0; ESetFieldFormats; EPluginSetsUp 0;
   ESetConfig 0 7; ERegisterFeature 0; ESetupComplete 0].

(** ** The job store behind the queue *)

(** [createQueueFactory] and [ReportingStore] are imported from ['./lib'];
    [plugin.ts] only constructs the store and hands it to the queue factory
    (lines 96-102). *)
Module JobQueue.

(** Modelled from the spec: the status of a Job. *)
Inductive JobStatus := Pending | Claimed | Processing | Completed | Failed.

Global Instance JobStatus_eq_dec : EqDecision JobStatus.
Proof. solve_decision. Defined.











End JobQueue.

(** ** Sample runs *)

(** Every collaborator succeeds: the start waits for the setup, the core
    ends [Ready] and the route handler context hands out the contract. *)
Example happyPath_run :
  calls (run happyPath init)
  = happyPrefix ++ [EGetConfig 0; EInitializeBrowserDriverFactory 0 7;
                    ENewReportingStore 0; ECreateQueueFactory 0;
                    EPluginStart 0; EStartComplete 0]
  /\ logger (run happyPath init)
     = [LogDebug "Setup complete"; LogDebug "Start complete"]
  /\ lifecycleOf 0 (run happyPath init) = Some Ready
  /\ outcome happyPath (HostRequest 0) = Provided (Some (getStartContract 0)).
Proof. repeat split; reflexivity. Qed.

(** [start] on a fresh plugin: the caller gets the exception of line 121,
    the log gets the rejection of line 92. *)
Example start_first_run :
  outcome [] HostStart = Threw (undefinedCore "getStartContract")
  /\ logger (run [HostStart] init)
     = [LogError (phaseMessage StartPhase);
        LogErrorObject (undefinedCore "pluginSetsUp")]
  /\ calls (run [HostStart] init) = [ESetFieldFormats].
Proof. repeat split; reflexivity. Qed.

(** The browser driver factory fails to initialize: no store is created, no
    queue polls, and requests keep being turned away. *)
Example browser_failure_run :
  calls (run [HostSetup; HostStart; BuildConfigSettles 0 (inr 7) None;
              BrowserDriverFactorySettles 0 (inl (Rejection 4))] init)
  = happyPrefix ++ [EGetConfig 0; EInitializeBrowserDriverFactory 0 7]
  /\ logger (run [HostSetup; HostStart; BuildConfigSettles 0 (inr 7) None;
                  BrowserDriverFactorySettles 0 (inl (Rejection 4))] init)
     = [LogDebug "Setup complete"; LogError (phaseMessage StartPhase);
        LogErrorObject (Rejection 4)]
  /\ outcome [HostSetup; HostStart; BuildConfigSettles 0 (inr 7) None;
              BrowserDriverFactorySettles 0 (inl (Rejection 4))] (HostRequest 0)
     = Provided None.
Proof. repeat split; reflexivity. Qed.

(** ** Records of calls *)

Lemma chronicle_split tr :
  Chronicle tr -> forall pre e post, tr = pre ++ e :: post -> req e pre.
Proof.
  induction 1 as [|tr e' Htr IH Hreq]; intros pre e post Heq.
  - by destruct pre.
  - destruct post as [|x post _] using rev_ind.
    + apply (app_inj_tail tr pre e' e) in Heq as [-> ->]. exact Hreq.
    + rewrite app_comm_cons, app_assoc in Heq.
      apply app_inj_tail in Heq as [Heq _]. by eapply IH.
Qed.

Lemma chronicle_app tr es :
  Chronicle tr ->
  (forall pre e post, es = pre ++ e :: post -> req e (tr ++ pre)) ->
  Chronicle (tr ++ es).
Proof.
  intros Htr. induction es as [|x es IH] using rev_ind; intros Hes.
  - by rewrite app_nil_r.
  - rewrite app_assoc. constructor.
    + apply IH. intros pre e post ->.
      apply (Hes pre e (post ++ [x])). by rewrite <- !app_assoc.
    + apply (Hes es x []). done.
Qed.

Lemma chronicle_member tr e :
  Chronicle tr -> e ∈ tr -> exists pre post, tr = pre ++ e :: post /\ req e pre.
Proof.
  intros Htr [pre [post ->]]%list_elem_of_split.
  exists pre, post. split; [done|]. by eapply chronicle_split.
Qed.

Lemma chronicle_prefix pre post : Chronicle (pre ++ post) -> Chronicle pre.
Proof.
  induction post as [|x post IH] using rev_ind.
  - by rewrite app_nil_r.
  - rewrite app_assoc. inversion 1 as [Hnil|tr e Htr Hreq Heq].
    + by destruct (pre ++ post).
    + apply app_inj_tail in Heq as [-> ->]. by apply IH.
Qed.

(** Case analysis on the membership of an event in an explicit list. *)
Ltac members H :=
  repeat (apply elem_of_cons in H as [H|H]; [try discriminate H; simplify_eq|]);
  try (by apply elem_of_nil in H).

(** Membership of an event in a record extended by explicit calls. *)
Ltac member := simpl; rewrite ?elem_of_app, ?elem_of_cons; tauto.

(** ** Monotonicity of the invariants' parts *)

Lemma startTaskOk_mono w w' t :
  startTaskOk w t ->
  calls w ⊆ calls w' ->
  length (heap w) <= length (heap w') ->
  startTaskOk w' t.
Proof.
  destruct t; simpl; intros H Hc Hh; try done.
  - destruct H. split; [lia | by apply Hc].
  - by apply Hc.
  - destruct H. split; [by apply Hc | lia].
Qed.

Lemma coreOk_mono w w' k c :
  coreOk w k c ->
  calls w ⊆ calls w' ->
  (setupTasks w' !! k = Some SetupAwaitsBuildConfig ->
   setupTasks w !! k = Some SetupAwaitsBuildConfig) ->
  coreOk w' k c.
Proof.
  intros (Hl & Hs & Hr & Ht & Hc & Hb) Hsub Htask.
  repeat split; auto.
  - apply Hsub. by apply Hs.
  - by apply Hs.
  - apply Ht. by apply Htask.
  - apply Ht. by apply Htask.
Qed.

(** ** The synchronous part of setup *)

Lemma setup_world w :
  (setup w).1 =
  {| logger := logger w;
     reportingCore := Some (length (heap w));
     heap := heap w ++ [pluginSetup newReportingCore];
     setupTasks := setupTasks w ++ [SetupAwaitsBuildConfig];
     startTasks := startTasks w;
     calls := calls w ++
       [ENewReportingCore (length (heap w));
        ERegisterRouteHandlerContext (length (heap w));
        ERegisterUiSettings; ECreateRouter;
        EPluginSetup (length (heap w));
        ERegisterReportingUsageCollector (length (heap w));
        ERegisterRoutes (length (heap w));
        EBuildConfig (length (heap w))] |}.
Proof.
  destruct w as [lg rc hp st ss cl].
  cbv [setup onCore setReportingCore spawnSetup emit alloc fst
       logger reportingCore heap setupTasks startTasks calls].
  rewrite list_lookup_middle by done.
  replace (length hp) with (length hp + 0) at 2 by lia.
  rewrite insert_app_r. simpl. by rewrite <- !app_assoc.
Qed.

Lemma setup_Inv w : Inv w -> Inv (setup w).1.
Proof.
  intros [Hlen Hthis Hcalls Hcore Hcfg Hcomp Hstart]. rewrite setup_world.
  constructor; simpl.
  - rewrite !length_app. simpl. lia.
  - intros k [= <-]. rewrite length_app. simpl. lia.
  - apply chronicle_app; [done|]. intros pre e post Heq.
    repeat (destruct pre as [|? pre]; simplify_eq/=; try done).
  - intros k c [[Hk Hc] | [-> <-]]%lookup_snoc_Some.
    + eapply coreOk_mono; [by apply Hcore | set_solver |].
      simpl. by rewrite lookup_app_l by lia.
    + repeat split; simpl; auto; try done.
      member.
  - intros k cfg [Hin | Hin]%elem_of_app; [|members Hin].
    destruct (Hcfg _ _ Hin) as (c & Hc & Hc').
    exists c. split; [|done]. rewrite lookup_app_l; [done|].
    by eapply lookup_lt_Some.
  - intros k [Hin | Hin]%elem_of_app; [|members Hin].
    destruct (Hcomp _ Hin) as (c & Hc & Hc').
    exists c. split; [|done]. rewrite lookup_app_l; [done|].
    by eapply lookup_lt_Some.
  - intros i t Ht. eapply startTaskOk_mono; [by eapply Hstart | set_solver |].
    simpl. rewrite length_app. lia.
Qed.

(** ** The background setup *)

Lemma setupTask_world k r reg w c :
  heap w !! k = Some c ->
  setupTask k r reg w =
  match r, reg with
  | inl e, _ => setupCatch e (setSetupTask k SetupSettled w)
  | inr cfg, Some e =>
      setupCatch e
        {| logger := logger w; reportingCore := reportingCore w;
           heap := <[k := setConfig cfg c]> (heap w);
           setupTasks := <[k := SetupSettled]> (setupTasks w);
           startTasks := startTasks w;
           calls := calls w ++ [ESetConfig k cfg; ERegisterFeature k] |}
  | inr cfg, None =>
      {| logger := logger w ++ [LogDebug "Setup complete"];
         reportingCore := reportingCore w;
         heap := <[k := registerFeature (setConfig cfg c)]> (heap w);
         setupTasks := <[k := SetupSettled]> (setupTasks w);
         startTasks := startTasks w;
         calls := calls w ++ [ESetConfig k cfg; ERegisterFeature k; ESetupComplete k] |}
  end.
Proof.
  intros Hc. pose proof (lookup_lt_Some _ _ _ Hc) as Hk.
  destruct w as [lg rc hp st ss cl]. simpl in Hc, Hk.
  destruct r as [e|cfg]; [done|].
  destruct reg as [e|];
    cbv [setupTask setupResume setupCatch onCore emit log setSetupTask
         logger reportingCore heap setupTasks startTasks calls];
    rewrite Hc.
  - by rewrite <- !app_assoc.
  - rewrite list_lookup_insert_eq by done.
    rewrite list_insert_insert_eq. by rewrite <- !app_assoc.
Qed.

Lemma settled_lookup (ts : list SetupTask) k k' :
  (<[k := SetupSettled]> ts) !! k' = Some SetupAwaitsBuildConfig ->
  k <> k' /\ ts !! k' = Some SetupAwaitsBuildConfig.
Proof. intros [(_ & ? & _) | [? ?]]%list_lookup_insert_Some; done. Qed.

Lemma not_registered_before w k c :
  Inv w -> heap w !! k = Some c -> config c = None ->
  (ERegisterFeature k ∉ calls w) /\ (forall cfg, ESetConfig k cfg ∉ calls w).
Proof.
  intros HI Hc Hnone.
  assert (forall cfg, ESetConfig k cfg ∉ calls w) as Hno.
  { intros cfg Hin. destruct (inv_config _ HI _ _ Hin) as (c' & Hc' & Hcfg).
    congruence. }
  split; [|done]. intros Hin.
  destruct (chronicle_member _ _ (inv_calls _ HI) Hin)
    as (pre & post & Heq & [[cfg Hcfg] _]).
  apply (Hno cfg). rewrite Heq. member.
Qed.

(** A world that differs from [w] only by its logger, by more calls, by
    setup tasks that settled and by the state of background starts satisfies
    the invariant as soon as the new calls and tasks are in order. *)
Lemma Inv_frame w w' :
  Inv w ->
  reportingCore w' = reportingCore w ->
  heap w' = heap w ->
  length (setupTasks w') = length (setupTasks w) ->
  (forall k, setupTasks w' !! k = Some SetupAwaitsBuildConfig ->
             setupTasks w !! k = Some SetupAwaitsBuildConfig) ->
  Chronicle (calls w') ->
  calls w ⊆ calls w' ->
  (forall k cfg, ESetConfig k cfg ∈ calls w' -> ESetConfig k cfg ∈ calls w) ->
  (forall k, ESetupComplete k ∈ calls w' -> ESetupComplete k ∈ calls w) ->
  (forall i t, startTasks w' !! i = Some t -> startTaskOk w' t) ->
  Inv w'.
Proof.
  intros [Hlen Hthis Hcalls Hcore Hcfg Hcomp Hstart]
    Hrc Hh Hsl Hst Hch Hsub Hnew Hnew' Hts.
  constructor; rewrite ?Hrc, ?Hh; try assumption.
  - congruence.
  - intros k c Hc. eapply coreOk_mono; [by apply Hcore | done | apply Hst].
  - intros k cfg Hin. apply Hcfg. by apply Hnew.
  - intros k Hin. apply Hcomp. by apply Hnew'.
Qed.

Lemma startTasks_same w w' :
  Inv w -> startTasks w' = startTasks w -> heap w' = heap w ->
  calls w ⊆ calls w' ->
  forall i t, startTasks w' !! i = Some t -> startTaskOk w' t.
Proof.
  intros HI Hs Hh Hc i t Hi. rewrite Hs in Hi.
  eapply startTaskOk_mono; [by eapply (inv_start _ HI) | done | by rewrite Hh].
Qed.

Lemma log_Inv e w : Inv w -> Inv (log e w).
Proof.
  intros HI. apply (Inv_frame w); try done.
  - apply HI.
  - by apply (startTasks_same w).
Qed.

Lemma setSetupTask_Inv k w : Inv w -> Inv (setSetupTask k SetupSettled w).
Proof.
  intros HI. apply (Inv_frame w); try done; simpl.
  - apply length_insert.
  - by intros k' [_ ?]%settled_lookup.
  - apply HI.
  - by apply (startTasks_same w).
Qed.

Lemma setupTask_Inv k r reg w :
  Inv w -> setupTasks w !! k = Some SetupAwaitsBuildConfig ->
  Inv (setupTask k r reg w).
Proof.
  intros HI Htask.
  assert (k < length (heap w)) as Hk.
  { rewrite <- (inv_tasks _ HI). by eapply lookup_lt_Some. }
  destruct (lookup_lt_is_Some_2 _ _ Hk) as [c Hc].
  destruct (inv_core _ HI _ _ Hc) as (Hl & Hs & Hr & Ht & Hcf & Hb).
  destruct (Ht Htask) as [Hnone Hlife].
  destruct (not_registered_before _ _ _ HI Hc Hnone) as [Hnr Hnc].
  assert (pluginSetsUp c = false) as Hup by (unfold pluginSetsUp; by rewrite Hlife).
  assert (forall k', ESetupComplete k' ∈ calls w -> k <> k') as Hother.
  { intros k' Hin <-. destruct (inv_complete _ HI _ Hin) as (c' & Hc' & Hup').
    congruence. }
  rewrite (setupTask_world _ _ _ _ _ Hc).
  destruct r as [e|cfg]; [by apply log_Inv, log_Inv, setSetupTask_Inv|].
  assert (forall k' cfg', ESetConfig k' cfg' ∈ calls w -> k <> k') as Hother'.
  { intros k' cfg' Hin <-. by apply (Hnc cfg'). }
  destruct HI as [Hlen Hthis Hcalls Hcore Hcfg Hcomp Hstart].
  destruct reg as [e|]; [apply log_Inv, log_Inv|]; constructor; simpl;
    rewrite ?length_insert; try assumption.
  all: try (apply chronicle_app; [done|]; intros pre ev post Heq;
    repeat (destruct pre as [|? pre]; simplify_eq/=; try done);
    rewrite ?app_nil_r; try member;
    (split; [by (exists cfg; member)|]); intros Hin;
    apply elem_of_app in Hin as [Hin|Hin]; [done | members Hin]).
  all: try (intros i t Hi; eapply startTaskOk_mono;
    [by eapply Hstart | intros ? ?; member | simpl; by rewrite length_insert]).
  all: try (intros k' cfg' [Hin | Hin]%elem_of_app;
    [ destruct (Hcfg _ _ Hin) as (c' & Hc' & Hc'');
      exists c'; rewrite list_lookup_insert_ne by (by eapply Hother'); done
    | members Hin; eexists; by rewrite list_lookup_insert_eq ]).
  all: try (intros k' [Hin | Hin]%elem_of_app;
    [ destruct (Hcomp _ Hin) as (c' & Hc' & Hc'');
      exists c'; rewrite list_lookup_insert_ne by (by eapply Hother); done
    | members Hin; exists (registerFeature (setConfig cfg c));
      by rewrite list_lookup_insert_eq ]).
  - intros k' c' [(<- & <- & _) | [Hne Hc']]%list_lookup_insert_Some.
    + unfold coreOk, pluginSetsUp; simpl. rewrite Hlife.
      rewrite list_lookup_insert_eq by lia.
      repeat split; try done; auto.
      * intros ? [= <-]. member.
      * member.
    + eapply coreOk_mono; [by apply Hcore | intros ? ?; member |].
      simpl. by intros [_ ?]%settled_lookup.
  - intros k' c' [(<- & <- & _) | [Hne Hc']]%list_lookup_insert_Some.
    + unfold coreOk, pluginSetsUp; simpl.
      rewrite list_lookup_insert_eq by lia.
      repeat split; try done; auto.
      * member.
      * intros ? [= <-]. member.
      * member.
    + eapply coreOk_mono; [by apply Hcore | intros ? ?; member |].
      simpl. by intros [_ ?]%settled_lookup.
Qed.

(** ** The synchronous part of start and the route handler context *)

(** A segment of a background start: the cores and the setup tasks are as
    before, and the new calls are start calls made in order. *)
Lemma Inv_start_segment w w' es :
  Inv w ->
  reportingCore w' = reportingCore w ->
  heap w' = heap w ->
  setupTasks w' = setupTasks w ->
  calls w' = calls w ++ es ->
  Forall startCall es ->
  (forall pre e post, es = pre ++ e :: post -> req e (calls w ++ pre)) ->
  (forall i t, startTasks w' !! i = Some t -> startTaskOk w' t) ->
  Inv w'.
Proof.
  intros HI Hrc Hh Hst Hc Hes Hreq Hts.
  apply (Inv_frame w); try done.
  - by rewrite Hst.
  - by rewrite Hst.
  - rewrite Hc. apply chronicle_app; [apply HI | done].
  - rewrite Hc. intros ? ?. member.
  - intros k cfg. rewrite Hc. intros [Hin|Hin]%elem_of_app; [done|].
    by destruct (proj1 (Forall_forall _ _) Hes _ Hin).
  - intros k. rewrite Hc. intros [Hin|Hin]%elem_of_app; [done|].
    by destruct (proj1 (Forall_forall _ _) Hes _ Hin).
Qed.

Lemma startTasks_insert_ok w' (ts : list StartTask) i t :
  (forall j t', ts !! j = Some t' -> startTaskOk w' t') ->
  startTaskOk w' t ->
  forall j t', (<[i := t]> ts) !! j = Some t' -> startTaskOk w' t'.
Proof.
  intros Hts Ht j t' [(_ & <- & _) | [_ Hj]]%list_lookup_insert_Some; [done|].
  by eapply Hts.
Qed.

Lemma startTasks_snoc_ok w' (ts : list StartTask) t :
  (forall j t', ts !! j = Some t' -> startTaskOk w' t') ->
  startTaskOk w' t ->
  forall j t', (ts ++ [t]) !! j = Some t' -> startTaskOk w' t'.
Proof.
  intros Hts Ht j t' [[_ Hj] | [_ <-]]%lookup_snoc_Some; [|done].
  by eapply Hts.
Qed.

Lemma startTasks_later w w' :
  Inv w -> heap w' = heap w -> calls w ⊆ calls w' ->
  forall i t, startTasks w !! i = Some t -> startTaskOk w' t.
Proof.
  intros HI Hh Hc i t Hi.
  eapply startTaskOk_mono; [by eapply (inv_start _ HI) | done | by rewrite Hh].
Qed.

Lemma start_Inv w : Inv w -> Inv (start w).1.
Proof.
  intros HI. unfold start. simpl.
  destruct (reportingCore w) as [k|] eqn:Hrc; simpl.
  - apply (Inv_start_segment w _ [ESetFieldFormats; EPluginSetsUp k]);
      try done; simpl.
    + by rewrite <- app_assoc.
    + by repeat constructor.
    + intros pre e post Heq.
      repeat (destruct pre as [|? pre]; simplify_eq/=; try done).
    + apply startTasks_snoc_ok.
      * apply (startTasks_later w); [done | done | intros ? ?; member].
      * simpl. split; [by apply (inv_this _ HI) | member].
  - apply log_Inv, log_Inv.
    apply (Inv_start_segment w _ [ESetFieldFormats]); try done; simpl.
    + by repeat constructor.
    + intros pre e post Heq.
      repeat (destruct pre as [|? pre]; simplify_eq/=; try done).
    + apply startTasks_snoc_ok; [|done].
      apply (startTasks_later w); [done | done | intros ? ?; member].
Qed.

Lemma routeHandlerContext_Inv k c w : Inv w -> Inv (routeHandlerContext k c w).1.
Proof.
  intros HI. unfold routeHandlerContext.
  destruct (pluginIsStarted c); simpl; [done | by apply log_Inv].
Qed.

(** ** The background start *)

Lemma startAfterSetsUp_Inv i w : Inv w -> Inv (startAfterSetsUp i w).
Proof.
  intros HI. unfold startAfterSetsUp.
  destruct (startTasks w !! i) as [[k| | |]|] eqn:Hi; try done.
  destruct (heap w !! k) as [c|] eqn:Hc; [|done].
  destruct (pluginSetsUp c) eqn:Hup; [|done].
  destruct (inv_core _ HI _ _ Hc) as (Hl & Hs & Hr & Ht & Hcf & Hb).
  destruct (Hs Hup) as [Hdone [cfg Hcfg]].
  destruct (inv_start _ HI _ _ Hi) as [_ Hcall].
  unfold getConfig. rewrite Hcfg.
  apply (Inv_start_segment w _ [EGetConfig k; EInitializeBrowserDriverFactory k cfg]);
    try done; simpl.
  - by rewrite <- app_assoc.
  - by repeat constructor.
  - intros pre e post Heq.
    repeat (destruct pre as [|? pre]; simplify_eq/=; try done);
      rewrite ?app_nil_r; try done.
    split; [member|]. apply elem_of_app. left. by apply Hcf.
  - apply startTasks_insert_ok; [|simpl; member].
    apply (startTasks_later w); [done | done | intros ? ?; member].
Qed.

Lemma awaited_factory_core w i k cfg :
  Inv w -> startTasks w !! i = Some (StartAwaitsBrowserDriverFactory k cfg) ->
  k < length (heap w).
Proof.
  intros HI Hi. pose proof (inv_start _ HI _ _ Hi) as Hok. simpl in Hok.
  destruct (chronicle_member _ _ (inv_calls _ HI) Hok)
    as (pre & post & Heq & [_ Hset]).
  destruct (inv_config _ HI k cfg) as (c & Hc & _).
  - rewrite Heq. member.
  - by eapply lookup_lt_Some.
Qed.

Lemma startAfterBrowserDriverFactory_Inv i k cfg r w :
  Inv w -> startTasks w !! i = Some (StartAwaitsBrowserDriverFactory k cfg) ->
  Inv (startAfterBrowserDriverFactory i k r w).
Proof.
  intros HI Hi. pose proof (inv_start _ HI _ _ Hi) as Hok. simpl in Hok.
  pose proof (awaited_factory_core _ _ _ _ HI Hi) as Hk.
  unfold startAfterBrowserDriverFactory. destruct r as [e|bdf].
  - apply log_Inv, log_Inv.
    apply (Inv_start_segment w _ []); try done; simpl.
    + by rewrite app_nil_r.
    + by intros [|??] ??.
    + apply startTasks_insert_ok; [|done].
      by apply (startTasks_later w).
  - apply (Inv_start_segment w _ [ENewReportingStore k; ECreateQueueFactory k]);
      try done; simpl.
    + by rewrite <- app_assoc.
    + by repeat constructor.
    + intros pre e post Heq.
      repeat (destruct pre as [|? pre]; simplify_eq/=; try done);
        rewrite ?app_nil_r; [by exists cfg | member].
    + apply startTasks_insert_ok; [|simpl; split; [member | done]].
      apply (startTasks_later w); [done | done | intros ? ?; member].
Qed.

Lemma chronicle_earlier tr e :
  Chronicle tr -> e ∈ tr ->
  exists pre, pre ⊆ tr /\ Chronicle pre /\ req e pre.
Proof.
  intros Htr Hin.
  destruct (chronicle_member _ _ Htr Hin) as (pre & post & -> & Hreq).
  exists pre. split; [intros ? ?; member|]. split; [|done].
  by eapply chronicle_prefix.
Qed.

(** The queue factory is only called for a core whose setup completed. *)
Lemma queue_after_setup tr k :
  Chronicle tr -> ECreateQueueFactory k ∈ tr -> ESetupComplete k ∈ tr.
Proof.
  intros C0 H0.
  destruct (chronicle_earlier _ _ C0 H0) as (p1 & S1 & C1 & H1). simpl in H1.
  destruct (chronicle_earlier _ _ C1 H1) as (p2 & S2 & C2 & [cfg H2]).
  destruct (chronicle_earlier _ _ C2 H2) as (p3 & S3 & C3 & [H3 _]).
  destruct (chronicle_earlier _ _ C3 H3) as (p4 & S4 & C4 & [H4 _]).
  by apply S1, S2, S3, S4.
Qed.

Lemma awaited_queue_core w i k bdf :
  Inv w -> startTasks w !! i = Some (StartAwaitsQueueFactory k bdf) ->
  exists c, heap w !! k = Some c /\ pluginSetsUp c = true.
Proof.
  intros HI Hi. destruct (inv_start _ HI _ _ Hi) as [Hq _].
  apply (inv_complete _ HI). by apply queue_after_setup; [apply HI|].
Qed.

Lemma startAfterQueueFactory_world i k r w c :
  heap w !! k = Some c ->
  startAfterQueueFactory i k r w =
  match r with
  | inl e => startCatch e (setStartTask i StartSettled w)
  | inr _ =>
      {| logger := logger w ++ [LogDebug "Start complete"];
         reportingCore := reportingCore w;
         heap := <[k := pluginStart c]> (heap w);
         setupTasks := setupTasks w;
         startTasks := <[i := StartSettled]> (startTasks w);
         calls := calls w ++ [EPluginStart k; EStartComplete k] |}
  end.
Proof.
  intros Hc. destruct w as [lg rc hp st ss cl]. simpl in Hc.
  destruct r as [e|q]; [done|].
  cbv [startAfterQueueFactory onCore emit log setStartTask
       logger reportingCore heap setupTasks startTasks calls].
  rewrite Hc. by rewrite <- !app_assoc.
Qed.

Lemma startAfterQueueFactory_Inv i k bdf r w :
  Inv w -> startTasks w !! i = Some (StartAwaitsQueueFactory k bdf) ->
  Inv (startAfterQueueFactory i k r w).
Proof.
  intros HI Hi.
  destruct (awaited_queue_core _ _ _ _ HI Hi) as (c & Hc & Hup).
  destruct (inv_start _ HI _ _ Hi) as [Hq Hk].
  rewrite (startAfterQueueFactory_world _ _ _ _ _ Hc).
  destruct r as [e|q].
  - apply log_Inv, log_Inv.
    apply (Inv_start_segment w _ []); try done; simpl.
    + by rewrite app_nil_r.
    + by intros [|??] ??.
    + apply startTasks_insert_ok; [|done].
      by apply (startTasks_later w).
  - destruct (inv_core _ HI _ _ Hc) as (Hl & Hs & Hr & Ht & Hcf & Hb).
    destruct (Hs Hup) as [Hdone Hsome].
    destruct HI as [Hlen Hthis Hcalls Hcore Hcfg Hcomp Hstart].
    constructor; simpl; rewrite ?length_insert; try assumption.
    + apply chronicle_app; [done|]. intros pre ev post Heq.
      repeat (destruct pre as [|? pre]; simplify_eq/=; try done);
        rewrite ?app_nil_r; [done | member].
    + intros k' c' [(<- & <- & _) | [Hne Hc']]%list_lookup_insert_Some.
      * unfold coreOk, pluginSetsUp; simpl.
        assert (setupTasks w !! k <> Some SetupAwaitsBuildConfig) as Hset.
        { intros Hw. destruct (Ht Hw) as [_ Hlife].
          unfold pluginSetsUp in Hup. by rewrite Hlife in Hup. }
        repeat split; try done; auto.
        -- member.
        -- intros _. member.
        -- intros cfg Hcfg'. apply elem_of_app. left. by apply Hcf.
        -- member.
      * eapply coreOk_mono; [by apply Hcore | intros ? ?; member | done].
    + intros k' cfg [Hin | Hin]%elem_of_app; [|members Hin].
      destruct (Hcfg _ _ Hin) as (c' & Hc' & Hc'').
      destruct (decide (k = k')) as [<-|Hne].
      * exists (pluginStart c). rewrite list_lookup_insert_eq by done.
        split; [done|]. simpl. congruence.
      * exists c'. by rewrite list_lookup_insert_ne.
    + intros k' [Hin | Hin]%elem_of_app; [|members Hin].
      destruct (Hcomp _ Hin) as (c' & Hc' & Hc'').
      destruct (decide (k = k')) as [<-|Hne].
      * exists (pluginStart c). by rewrite list_lookup_insert_eq.
      * exists c'. by rewrite list_lookup_insert_ne.
    + apply startTasks_insert_ok; [|done].
      intros j t Hj. eapply startTaskOk_mono;
        [by eapply Hstart | intros ? ?; member | simpl; by rewrite length_insert].
Qed.

(** ** Microtasks *)

(** A background start that resumes touches neither the cores, nor the
    setup tasks, nor the plugin's reference to its core. *)
Lemma startAfterSetsUp_frame i w :
  heap (startAfterSetsUp i w) = heap w
  /\ setupTasks (startAfterSetsUp i w) = setupTasks w
  /\ reportingCore (startAfterSetsUp i w) = reportingCore w
  /\ length (startTasks (startAfterSetsUp i w)) = length (startTasks w).
Proof.
  unfold startAfterSetsUp.
  destruct (startTasks w !! i) as [[k| | |]|]; try done.
  destruct (heap w !! k) as [c|]; [|done].
  destruct (pluginSetsUp c); [|done].
  destruct (getConfig c); simpl; by rewrite length_insert.
Qed.

(** A start that still waits after the pass waited before it, and the core
    it waits for has not completed its setup. *)
Lemma startAfterSetsUp_waiting j w i k :
  Inv w ->
  startTasks (startAfterSetsUp j w) !! i = Some (StartAwaitsPluginSetsUp k) ->
  startTasks w !! i = Some (StartAwaitsPluginSetsUp k)
  /\ (i = j -> exists c, heap w !! k = Some c /\ pluginSetsUp c = false).
Proof.
  intros HI. unfold startAfterSetsUp.
  destruct (startTasks w !! j) as [[k'| | |]|] eqn:Hj;
    try (intros Hi; split; [done|]; intros ->; congruence).
  destruct (inv_start _ HI _ _ Hj) as [Hk' _].
  destruct (lookup_lt_is_Some_2 _ _ Hk') as [c Hc]. rewrite Hc.
  destruct (pluginSetsUp c) eqn:Hup.
  - destruct (getConfig c); simpl;
      intros [(_ & ? & _) | [Hne Hi]]%list_lookup_insert_Some; try done.
  - intros Hi. split; [done|]. intros ->.
    assert (k' = k) as -> by congruence. by exists c.
Qed.

Lemma resume_all_Inv l w :
  Inv w -> Inv (foldl (fun w i => startAfterSetsUp i w) w l).
Proof.
  revert w. induction l as [|i l IH]; intros w HI; [done|].
  simpl. by apply IH, startAfterSetsUp_Inv.
Qed.

Lemma resume_all_frame l w :
  let w' := foldl (fun w i => startAfterSetsUp i w) w l in
  heap w' = heap w /\ setupTasks w' = setupTasks w
  /\ reportingCore w' = reportingCore w
  /\ length (startTasks w') = length (startTasks w).
Proof.
  revert w. induction l as [|i l IH]; intros w; [done|]. simpl.
  destruct (IH (startAfterSetsUp i w)) as (-> & -> & -> & ->).
  apply startAfterSetsUp_frame.
Qed.

Lemma resume_all_waiting l w i k :
  Inv w ->
  startTasks (foldl (fun w i => startAfterSetsUp i w) w l) !! i
    = Some (StartAwaitsPluginSetsUp k) ->
  startTasks w !! i = Some (StartAwaitsPluginSetsUp k)
  /\ (i ∈ l -> exists c, heap w !! k = Some c /\ pluginSetsUp c = false).
Proof.
  revert w. induction l as [|j l IH]; intros w HI Hi.
  - split; [done|]. by intros ?%elem_of_nil.
  - simpl in Hi.
    destruct (IH _ (startAfterSetsUp_Inv j _ HI) Hi) as [Hi' Hl].
    destruct (startAfterSetsUp_waiting _ _ _ _ HI Hi') as [Hi'' Hj].
    split; [done|]. intros [->|Hin]%elem_of_cons; [by apply Hj|].
    destruct (Hl Hin) as (c & Hc & Hup). exists c. split; [|done].
    by rewrite (proj1 (startAfterSetsUp_frame j w)) in Hc.
Qed.

Lemma microtasks_Inv w : Inv w -> Inv (microtasks w).
Proof. apply resume_all_Inv. Qed.

Lemma microtasks_frame w :
  heap (microtasks w) = heap w /\ setupTasks (microtasks w) = setupTasks w
  /\ reportingCore (microtasks w) = reportingCore w
  /\ length (startTasks (microtasks w)) = length (startTasks w).
Proof. apply resume_all_frame. Qed.

Lemma microtasks_Quiescent w : Inv w -> Quiescent (microtasks w).
Proof.
  intros HI i k Hi.
  destruct (resume_all_waiting _ _ _ _ HI Hi) as [Hi' Hl].
  rewrite (proj1 (microtasks_frame w)). apply Hl.
  apply elem_of_seq. apply lookup_lt_Some in Hi'. lia.
Qed.

(** With no runnable task the microtask pass does nothing. *)
Lemma microtasks_idle w : Quiescent w -> microtasks w = w.
Proof.
  intros HQ. unfold microtasks. generalize (seq 0 (length (startTasks w))).
  intros l. induction l as [|i l IH]; [done|]. simpl.
  replace (startAfterSetsUp i w) with w; [done|].
  unfold startAfterSetsUp.
  destruct (startTasks w !! i) as [[k| | |]|] eqn:Hi; try done.
  destruct (HQ _ _ Hi) as (c & -> & ->). done.
Qed.

(** The waiting starts of a quiescent world stay put when only the logger,
    the setup tasks or the cores that nobody waits for change. *)
Lemma Quiescent_frame w w' :
  Quiescent w -> startTasks w' = startTasks w -> heap w' = heap w ->
  Quiescent w'.
Proof. intros HQ Hs Hh i k. rewrite Hs, Hh. apply HQ. Qed.

(** ** Reachable worlds *)

Lemma init_Inv : Inv init.
Proof.
  constructor; simpl; try done.
  - constructor.
  - by intros ?? ?%elem_of_nil.
  - by intros ? ?%elem_of_nil.
Qed.

Lemma react_Inv i w : Inv w -> Inv (react i w).1.
Proof.
  intros HI. destruct i as [| |k|k r reg|i r|i r]; simpl.
  - by apply setup_Inv.
  - by apply start_Inv.
  - destruct (heap w !! k); [by apply routeHandlerContext_Inv | done].
  - destruct (setupTasks w !! k) as [[|]|] eqn:Hk; try done.
    by apply setupTask_Inv.
  - destruct (startTasks w !! i) as [[| | |]|] eqn:Hi; try done.
    by eapply startAfterBrowserDriverFactory_Inv.
  - destruct (startTasks w !! i) as [[| | |]|] eqn:Hi; try done.
    by eapply startAfterQueueFactory_Inv.
Qed.

Lemma step_world i w : (step i w).1 = microtasks (react i w).1.
Proof. unfold step. by destruct (react i w). Qed.

Lemma step_outcome i w : (step i w).2 = (react i w).2.
Proof. unfold step. by destruct (react i w). Qed.

Lemma step_Inv i w : Inv w -> Inv (step i w).1 /\ Quiescent (step i w).1.
Proof.
  intros HI. rewrite step_world. split.
  - by apply microtasks_Inv, react_Inv.
  - by apply microtasks_Quiescent, react_Inv.
Qed.

Lemma run_snoc inputs i w : run (inputs ++ [i]) w = (step i (run inputs w)).1.
Proof. unfold run. by rewrite foldl_app. Qed.

Lemma run_app xs ys w : run (xs ++ ys) w = run ys (run xs w).
Proof. unfold run. by rewrite foldl_app. Qed.

Lemma run_Inv inputs w :
  Inv w -> Quiescent w -> Inv (run inputs w) /\ Quiescent (run inputs w).
Proof.
  intros HI HQ. induction inputs as [|i inputs IH] using rev_ind; [done|].
  rewrite run_snoc. apply step_Inv, IH.
Qed.

Lemma reachable_Inv inputs :
  Inv (run inputs init) /\ Quiescent (run inputs init).
Proof. apply run_Inv; [apply init_Inv | by intros i k ?]. Qed.

(** ** What a call in the record tells about earlier calls *)

Lemma chronicle_needs tr e a :
  Chronicle tr -> e ∈ tr -> (forall pre, req e pre -> a ∈ pre) -> a ∈ tr.
Proof.
  intros C H Hreq. destruct (chronicle_earlier _ _ C H) as (pre & S & _ & R).
  by apply S, Hreq.
Qed.

Lemma registerFeature_after_setConfig tr k :
  Chronicle tr -> ERegisterFeature k ∈ tr -> exists cfg, ESetConfig k cfg ∈ tr.
Proof.
  intros C H. destruct (chronicle_earlier _ _ C H) as (pre & S & _ & [[cfg R] _]).
  exists cfg. by apply S.
Qed.

Lemma setupComplete_after_registerFeature tr k :
  Chronicle tr -> ESetupComplete k ∈ tr -> ERegisterFeature k ∈ tr.
Proof. intros C H. by apply (chronicle_needs tr (ESetupComplete k)). Qed.

Lemma setConfig_after_buildConfig tr k cfg :
  Chronicle tr -> ESetConfig k cfg ∈ tr -> EBuildConfig k ∈ tr.
Proof.
  intros C H. apply (chronicle_needs tr (ESetConfig k cfg)); [done..|].
  by intros pre [? _].
Qed.

Lemma getConfig_after_setupComplete tr k :
  Chronicle tr -> EGetConfig k ∈ tr -> ESetupComplete k ∈ tr.
Proof.
  intros C H. apply (chronicle_needs tr (EGetConfig k)); [done..|].
  by intros pre [? _].
Qed.

Lemma getConfig_after_pluginSetsUp tr k :
  Chronicle tr -> EGetConfig k ∈ tr -> EPluginSetsUp k ∈ tr.
Proof.
  intros C H. apply (chronicle_needs tr (EGetConfig k)); [done..|].
  by intros pre [_ ?].
Qed.

Lemma factory_after_getConfig tr k cfg :
  Chronicle tr -> EInitializeBrowserDriverFactory k cfg ∈ tr -> EGetConfig k ∈ tr.
Proof.
  intros C H.
  apply (chronicle_needs tr (EInitializeBrowserDriverFactory k cfg)); [done..|].
  by intros pre [? _].
Qed.

Lemma store_after_factory tr k :
  Chronicle tr -> ENewReportingStore k ∈ tr ->
  exists cfg, EInitializeBrowserDriverFactory k cfg ∈ tr.
Proof.
  intros C H. destruct (chronicle_earlier _ _ C H) as (pre & S & _ & [cfg R]).
  exists cfg. by apply S.
Qed.

Lemma queue_after_store tr k :
  Chronicle tr -> ECreateQueueFactory k ∈ tr -> ENewReportingStore k ∈ tr.
Proof. intros C H. by apply (chronicle_needs tr (ECreateQueueFactory k)). Qed.

Lemma pluginStart_after_queue tr k :
  Chronicle tr -> EPluginStart k ∈ tr -> ECreateQueueFactory k ∈ tr.
Proof. intros C H. by apply (chronicle_needs tr (EPluginStart k)). Qed.

Lemma startComplete_after_pluginStart tr k :
  Chronicle tr -> EStartComplete k ∈ tr -> EPluginStart k ∈ tr.
Proof. intros C H. by apply (chronicle_needs tr (EStartComplete k)). Qed.

Lemma startStep_after_getConfig tr e k :
  Chronicle tr -> e ∈ tr -> startStep e = Some k -> EGetConfig k ∈ tr.
Proof.
  intros C H Hs. destruct e; simplify_eq/=; try done.
  - by eapply factory_after_getConfig.
  - destruct (store_after_factory _ _ C H) as [cfg H1].
    by eapply factory_after_getConfig.
  - apply queue_after_store in H; [|done].
    destruct (store_after_factory _ _ C H) as [cfg H1].
    by eapply factory_after_getConfig.
  - apply pluginStart_after_queue, queue_after_store in H; [|done..].
    destruct (store_after_factory _ _ C H) as [cfg H1].
    by eapply factory_after_getConfig.
  - apply startComplete_after_pluginStart, pluginStart_after_queue,
      queue_after_store in H; [|done..].
    destruct (store_after_factory _ _ C H) as [cfg H1].
    by eapply factory_after_getConfig.
Qed.

(** The same, for the calls made before the step itself. *)
Lemma startStep_needs_setup pre e k :
  Chronicle pre -> req e pre -> startStep e = Some k ->
  ESetupComplete k ∈ pre /\ EPluginSetsUp k ∈ pre.
Proof.
  intros C R Hs.
  assert (Chronicle (pre ++ [e])) as C' by (by constructor).
  assert (EGetConfig k ∈ pre ++ [e]) as H.
  { apply (startStep_after_getConfig _ e); [done | member | done]. }
  destruct (decide (e = EGetConfig k)) as [->|Hne]; [done|].
  apply elem_of_app in H as [H|H]; [|by members H].
  split; [by apply getConfig_after_setupComplete
         | by apply getConfig_after_pluginSetsUp].
Qed.

(** C1: in every execution, a step of the background start that comes after
    [await reportingCore.pluginSetsUp()] -- reading Config at line 93 and
    everything that consumes it afterwards -- happens only once the
    background setup of the same core has called [buildConfig], stored the
    resolved Config, registered the feature and reached its last line. *)
Theorem start_task_waits_for_setup inputs pre e post k :
  calls (run inputs init) = pre ++ e :: post ->
  startStep e = Some k ->
  EBuildConfig k ∈ pre
  /\ (exists cfg, ESetConfig k cfg ∈ pre)
  /\ ERegisterFeature k ∈ pre
  /\ ESetupComplete k ∈ pre
  /\ EPluginSetsUp k ∈ pre.
Proof.
  intros Heq Hs.
  destruct (reachable_Inv inputs) as [HI _].
  pose proof (inv_calls _ HI) as C. rewrite Heq in C.
  pose proof (chronicle_split _ C _ _ _ eq_refl) as R.
  apply chronicle_prefix in C.
  destruct (startStep_needs_setup _ _ _ C R Hs) as [Hdone Hcall].
  pose proof (setupComplete_after_registerFeature _ _ C Hdone) as Hreg.
  destruct (registerFeature_after_setConfig _ _ C Hreg) as [cfg Hcfg].
  pose proof (setConfig_after_buildConfig _ _ _ C Hcfg) as Hb.
  repeat split; try done. by exists cfg.
Qed.

Lemma start_task_waits_for_setup_witness :
  EBuildConfig 0 ∈ happyPrefix
  /\ (exists cfg, ESetConfig 0 cfg ∈ happyPrefix)
  /\ ERegisterFeature 0 ∈ happyPrefix
  /\ ESetupComplete 0 ∈ happyPrefix
  /\ EPluginSetsUp 0 ∈ happyPrefix.
Proof.
  apply (start_task_waits_for_setup happyPath happyPrefix (EGetConfig 0)
           [EInitializeBrowserDriverFactory 0 7; ENewReportingStore 0;
            ECreateQueueFactory 0; EPluginStart 0; EStartComplete 0] 0);
    reflexivity.
Defined.

(** ** Order of the initialization steps of the start phase *)

(** C4, counterexample: on the successful run the browser driver factory is
    initialized (line 95) while no [ReportingStore] exists yet (line 96); the
    order JobStore, BrowserDriverFactory, JobQueue is not the one of the
    code. *)
Lemma store_first_fails :
  ~ precedes (ENewReportingStore 0) (EInitializeBrowserDriverFactory 0 7)
      (calls (run happyPath init)).
Proof.
  intros H.
  specialize (H (happyPrefix ++ [EGetConfig 0])
                [ENewReportingStore 0; ECreateQueueFactory 0;
                 EPluginStart 0; EStartComplete 0] eq_refl).
  unfold happyPrefix in H. simpl in H. by members H.
Qed.

(** C4, amended: in every execution the background start initializes the
    browser driver factory first, then creates the job store, then the job
    queue: a store is only created after [initializeBrowserDriverFactory] was
    called for the same core, and [createQueueFactory] is only called after
    the store was created. *)
Theorem start_initialization_order inputs k pre post :
  (calls (run inputs init) = pre ++ ENewReportingStore k :: post ->
     exists cfg, EInitializeBrowserDriverFactory k cfg ∈ pre)
  /\ (calls (run inputs init) = pre ++ ECreateQueueFactory k :: post ->
     exists cfg pre1 pre2,
       pre = pre1 ++ ENewReportingStore k :: pre2
       /\ EInitializeBrowserDriverFactory k cfg ∈ pre1).
Proof.
  destruct (reachable_Inv inputs) as [HI _].
  pose proof (inv_calls _ HI) as C.
  split; intros Heq; rewrite Heq in C;
    pose proof (chronicle_split _ C _ _ _ eq_refl) as R; simpl in R; [done|].
  apply chronicle_prefix in C.
  destruct (chronicle_member _ _ C R) as (pre1 & pre2 & -> & [cfg R']).
  by exists cfg, pre1, pre2.
Qed.

Lemma start_initialization_order_witness :
  exists cfg pre1 pre2,
    happyPrefix ++ [EGetConfig 0; EInitializeBrowserDriverFactory 0 7;
                    ENewReportingStore 0]
      = pre1 ++ ENewReportingStore 0 :: pre2
    /\ EInitializeBrowserDriverFactory 0 cfg ∈ pre1.
Proof.
  apply (proj2 (start_initialization_order happyPath 0
           (happyPrefix ++ [EGetConfig 0; EInitializeBrowserDriverFactory 0 7;
                            ENewReportingStore 0])
           [EPluginStart 0; EStartComplete 0])).
  reflexivity.
Defined.

(** ** How one segment changes the plugin and the heap *)

Ltac segments :=
  cbv [react setup start routeHandlerContext setupTask setupResume setupCatch
       startCatch startAfterBrowserDriverFactory startAfterQueueFactory
       onCore emit log alloc spawnSetup spawnStart setSetupTask setStartTask
       setReportingCore logger reportingCore heap setupTasks startTasks calls
       fst snd].

Lemma react_heap_length i w :
  length (heap (react i w).1)
  = length (heap w) + (if isHostSetup i then 1 else 0).
Proof.
  destruct w as [lg rc hp st ss cl].
  destruct i as [| |k|k [e|cfg] [e'|]|j [e|b]|j [e|q]]; segments;
    repeat case_match; simplify_eq/=;
    rewrite ?length_insert, ?length_app; simpl; lia.
Qed.

Lemma react_reportingCore i w :
  isHostSetup i = false -> reportingCore (react i w).1 = reportingCore w.
Proof.
  destruct w as [lg rc hp st ss cl].
  destruct i as [| |k|k [e|cfg] [e'|]|j [e|b]|j [e|q]]; segments;
    repeat case_match; by simplify_eq/=.
Qed.

Lemma step_heap_length i w :
  length (heap (step i w).1)
  = length (heap w) + (if isHostSetup i then 1 else 0).
Proof.
  rewrite step_world, (proj1 (microtasks_frame _)). apply react_heap_length.
Qed.

Lemma step_reportingCore i w :
  isHostSetup i = false -> reportingCore (step i w).1 = reportingCore w.
Proof.
  intros Hi. rewrite step_world.
  destruct (microtasks_frame (react i w).1) as (_ & _ & -> & _).
  by apply react_reportingCore.
Qed.

Lemma step_setup_reportingCore w :
  reportingCore (step HostSetup w).1 = Some (length (heap w)).
Proof.
  rewrite step_world.
  destruct (microtasks_frame (react HostSetup w).1) as (_ & _ & -> & _).
  change (react HostSetup w) with (setup w). by rewrite setup_world.
Qed.

(** One core is allocated per [setup] call. *)
Lemma heap_length_run inputs :
  length (heap (run inputs init)) = setupCalls inputs.
Proof.
  unfold setupCalls.
  induction inputs as [|i inputs IH] using rev_ind; [done|].
  rewrite run_snoc, step_heap_length, IH, filter_app, length_app.
  f_equal. by destruct i.
Qed.

(** The calls of a microtask pass are steps of background starts. *)
Lemma startAfterSetsUp_calls i w :
  exists es, calls (startAfterSetsUp i w) = calls w ++ es
             /\ Forall (fun e => is_Some (startStep e)) es.
Proof.
  unfold startAfterSetsUp.
  destruct (startTasks w !! i) as [[k| | |]|];
    try (exists []; by rewrite app_nil_r).
  destruct (heap w !! k) as [c|]; [|exists []; by rewrite app_nil_r].
  destruct (pluginSetsUp c); [|exists []; by rewrite app_nil_r].
  destruct (getConfig c) as [e|cfg]; simpl.
  - exists [EGetConfig k]. split; [done|]. by repeat constructor.
  - exists [EGetConfig k; EInitializeBrowserDriverFactory k cfg].
    rewrite <- app_assoc. split; [done|]. by repeat constructor.
Qed.

Lemma microtasks_calls w :
  exists es, calls (microtasks w) = calls w ++ es
             /\ Forall (fun e => is_Some (startStep e)) es.
Proof.
  unfold microtasks. generalize (seq 0 (length (startTasks w))). intros l.
  revert w. induction l as [|i l IH]; intros w.
  - exists []. by rewrite app_nil_r.
  - simpl. destruct (IH (startAfterSetsUp i w)) as (es2 & -> & F2).
    destruct (startAfterSetsUp_calls i w) as (es1 & -> & F1).
    exists (es1 ++ es2). rewrite app_assoc. split; [done|].
    by apply Forall_app.
Qed.

(** ** Feature registration *)

Lemma registrations_member tr k :
  k ∈ registrations tr <-> ERegisterFeature k ∈ tr.
Proof.
  unfold registrations. rewrite list_elem_of_omap. split.
  - intros (e & He & Hk). destruct e; by simplify_eq.
  - intros H. by exists (ERegisterFeature k).
Qed.

Lemma registrations_NoDup tr : Chronicle tr -> NoDup (registrations tr).
Proof.
  induction 1 as [|tr e C IH R]; [constructor|].
  unfold registrations. rewrite omap_app. fold (registrations tr).
  destruct e; simpl; rewrite ?app_nil_r; try done.
  apply NoDup_app. split; [done|]. split; [|apply NoDup_singleton].
  intros k' Hk' ->%list_elem_of_singleton.
  destruct R as [_ R]. apply R. by apply registrations_member.
Qed.

Lemma registrations_bound w :
  Inv w -> length (registrations (calls w)) <= length (heap w).
Proof.
  intros HI. rewrite <- (length_seq (length (heap w)) 0).
  apply submseteq_length, NoDup_submseteq.
  - apply registrations_NoDup, HI.
  - intros k Hk%registrations_member.
    destruct (registerFeature_after_setConfig _ _ (inv_calls _ HI) Hk) as [cfg H].
    destruct (inv_config _ HI _ _ H) as (c & Hc & _).
    apply elem_of_seq. apply lookup_lt_Some in Hc. lia.
Qed.

Lemma react_buildConfig k r reg w :
  setupTasks w !! k = Some SetupAwaitsBuildConfig ->
  react (BuildConfigSettles k r reg) w = (setupTask k r reg w, Resumed).
Proof. intros H. cbv [react]. by rewrite H. Qed.

(** C8: the background setup, once [buildConfig] has resolved, stores the
    Config, then invokes the feature registration, then is complete, and
    these are all its steps (what follows in the same turn of the event loop
    are steps of background starts that were waiting).  In every execution
    [registerFeature] is invoked on a core only after that core's Config was
    set, at most once per core, and at most as many times overall as [setup]
    was called. *)
Theorem setup_task_steps inputs k :
  (forall cfg, setupTasks (run inputs init) !! k = Some SetupAwaitsBuildConfig ->
     exists rest,
       calls (run (inputs ++ [BuildConfigSettles k (inr cfg) None]) init)
       = calls (run inputs init)
         ++ [ESetConfig k cfg; ERegisterFeature k; ESetupComplete k] ++ rest
       /\ Forall (fun e => is_Some (startStep e)) rest
       /\ lifecycleOf k (run (inputs ++ [BuildConfigSettles k (inr cfg) None]) init)
          = Some SetupComplete)
  /\ (forall pre post,
        calls (run inputs init) = pre ++ ERegisterFeature k :: post ->
        (exists cfg, ESetConfig k cfg ∈ pre)
        /\ (ERegisterFeature k ∉ pre) /\ (ERegisterFeature k ∉ post))
  /\ length (registrations (calls (run inputs init))) <= setupCalls inputs.
Proof.
  destruct (reachable_Inv inputs) as [HI HQ].
  split; [|split].
  - intros cfg Htask. rewrite run_snoc, step_world.
    assert (k < length (heap (run inputs init))) as Hk.
    { rewrite <- (inv_tasks _ HI). by eapply lookup_lt_Some. }
    destruct (lookup_lt_is_Some_2 _ _ Hk) as [c Hc].
    destruct (microtasks_calls (react (BuildConfigSettles k (inr cfg) None)
                                  (run inputs init)).1) as (rest & -> & F).
    exists rest. unfold lifecycleOf.
    rewrite (proj1 (microtasks_frame _)), (react_buildConfig _ _ _ _ Htask).
    cbn [fst]. rewrite (setupTask_world _ _ _ _ _ Hc). cbn [calls heap].
    rewrite list_lookup_insert_eq by done. by rewrite <- app_assoc.
  - intros pre post Heq. pose proof (inv_calls _ HI) as C. rewrite Heq in C.
    destruct (chronicle_split _ C _ _ _ eq_refl) as [Hcfg Hpre].
    split; [done|]. split; [done|].
    intros [p1 [p2 ->]]%list_elem_of_split.
    assert (pre ++ ERegisterFeature k :: p1 ++ ERegisterFeature k :: p2
            = (pre ++ ERegisterFeature k :: p1) ++ ERegisterFeature k :: p2) as E
      by (by rewrite <- app_assoc).
    destruct (chronicle_split _ C _ _ _ E) as [_ Hno]. apply Hno. member.
  - rewrite <- heap_length_run. by apply registrations_bound.
Qed.

Lemma setup_task_steps_witness :
  exists rest,
    calls (run ([HostSetup] ++ [BuildConfigSettles 0 (inr 7) None]) init)
    = calls (run [HostSetup] init)
      ++ [ESetConfig 0 7; ERegisterFeature 0; ESetupComplete 0] ++ rest
    /\ Forall (fun e => is_Some (startStep e)) rest
    /\ lifecycleOf 0 (run ([HostSetup] ++ [BuildConfigSettles 0 (inr 7) None]) init)
       = Some SetupComplete.
Proof.
  apply (proj1 (setup_task_steps [HostSetup] 0) 7). reflexivity.
Defined.

(** ** What the host gets back *)

Lemma setupCalls_snoc inputs i :
  setupCalls (inputs ++ [i])
  = setupCalls inputs + (if isHostSetup i then 1 else 0).
Proof.
  unfold setupCalls. rewrite filter_app, length_app. f_equal. by destruct i.
Qed.

(** Without a [setup] call the plugin keeps the core it has. *)
Lemma run_reportingCore mid w :
  setupCalls mid = 0 -> reportingCore (run mid w) = reportingCore w.
Proof.
  induction mid as [|i mid IH] using rev_ind; [done|].
  rewrite setupCalls_snoc, run_snoc. intros H.
  rewrite step_reportingCore; [apply IH; lia|].
  destruct (isHostSetup i); [lia | done].
Qed.

Lemma start_outcome w :
  (step HostStart w).2 =
  match reportingCore w with
  | Some k => Returned (getStartContract k)
  | None => Threw (undefinedCore "getStartContract")
  end.
Proof.
  rewrite step_outcome. cbv [react start emit reportingCore].
  by destruct w as [lg [k|] hp st ss cl].
Qed.

Lemma setup_outcome w :
  (step HostSetup w).2 = Returned (getStartContract (length (heap w))).
Proof. by rewrite step_outcome. Qed.

Lemma run_setup_reportingCore pre mid :
  setupCalls mid = 0 ->
  reportingCore (run (pre ++ HostSetup :: mid) init) = Some (setupCalls pre).
Proof.
  intros Hmid. rewrite run_app. change (HostSetup :: mid) with ([HostSetup] ++ mid).
  rewrite run_app, (run_reportingCore _ _ Hmid).
  change (run [HostSetup] (run pre init)) with (step HostSetup (run pre init)).1.
  by rewrite step_setup_reportingCore, heap_length_run.
Qed.

(** C10: on a plugin instance whose [setup] was never called, [start] does
    not return: the method call of line 121 on the absent core throws to the
    caller. *)
Theorem start_without_setup_throws inputs :
  setupCalls inputs = 0 ->
  outcome inputs HostStart = Threw (undefinedCore "getStartContract").
Proof.
  intros H. unfold outcome.
  by rewrite start_outcome, (run_reportingCore _ _ H).
Qed.

Lemma start_without_setup_throws_witness :
  outcome [HostStart; HostRequest 0] HostStart
  = Threw (undefinedCore "getStartContract").
Proof. apply (start_without_setup_throws [HostStart; HostRequest 0]). reflexivity. Defined.

(** C6: the contract that [start] returns is the very object that the
    latest [setup] returned, the one of the core that this [setup] allocated;
    two [setup] calls that return the same object are the same call. *)
Theorem start_returns_setup_contract pre mid :
  setupCalls mid = 0 ->
  outcome (pre ++ HostSetup :: mid) HostStart = outcome pre HostSetup
  /\ outcome pre HostSetup = Returned (getStartContract (setupCalls pre))
  /\ (forall pre', outcome pre' HostSetup = outcome pre HostSetup ->
                   setupCalls pre' = setupCalls pre).
Proof.
  intros Hmid. unfold outcome.
  rewrite start_outcome, (run_setup_reportingCore _ _ Hmid).
  rewrite !setup_outcome, heap_length_run. split; [done|]. split; [done|].
  intros pre'. rewrite setup_outcome, heap_length_run. by intros [= ->].
Qed.

Lemma start_returns_setup_contract_witness :
  outcome ([HostSetup; HostStart]
             ++ HostSetup :: [BuildConfigSettles 1 (inr 7) None; HostRequest 1])
    HostStart
  = outcome [HostSetup; HostStart] HostSetup
  /\ outcome [HostSetup; HostStart] HostSetup
     = Returned (getStartContract (setupCalls [HostSetup; HostStart]))
  /\ (forall pre', outcome pre' HostSetup = outcome [HostSetup; HostStart] HostSetup ->
                   setupCalls pre' = setupCalls [HostSetup; HostStart]).
Proof.
  apply (start_returns_setup_contract [HostSetup; HostStart]
           [BuildConfigSettles 1 (inr 7) None; HostRequest 1]).
  reflexivity.
Defined.

(** ** The readiness gate *)

(** C5: while the lifecycle of its core is not [Ready], the route handler
    context callback returns [null] instead of throwing; the only trace it
    leaves is one error line in the log: cores, tasks and the plugin's
    fields are as before. *)
Theorem not_ready_gate inputs k l :
  lifecycleOf k (run inputs init) = Some l ->
  l <> Ready ->
  step (HostRequest k) (run inputs init)
  = (log (LogError "Reporting features are not yet ready") (run inputs init),
     Provided None).
Proof.
  intros Hl Hne. destruct (reachable_Inv inputs) as [HI HQ].
  unfold lifecycleOf in Hl.
  destruct (heap (run inputs init) !! k) as [c|] eqn:Hc; simplify_eq/=.
  unfold step. cbv [react]. rewrite Hc. unfold routeHandlerContext, pluginIsStarted.
  rewrite bool_decide_eq_false_2 by done.
  rewrite microtasks_idle; [done|]. by apply (Quiescent_frame (run inputs init)).
Qed.

Lemma not_ready_gate_witness :
  step (HostRequest 0) (run [HostSetup; HostStart] init)
  = (log (LogError "Reporting features are not yet ready")
       (run [HostSetup; HostStart] init),
     Provided None).
Proof.
  apply (not_ready_gate [HostSetup; HostStart] 0 SetupInProgress);
    [reflexivity | discriminate].
Defined.

(** ** Setup and start do not wait *)

Lemma startAfterSetsUp_keeps j w i k c :
  startTasks w !! i = Some (StartAwaitsPluginSetsUp k) ->
  heap w !! k = Some c -> pluginSetsUp c = false ->
  startTasks (startAfterSetsUp j w) !! i = Some (StartAwaitsPluginSetsUp k).
Proof.
  intros Hi Hc Hup. unfold startAfterSetsUp.
  destruct (startTasks w !! j) as [[k'| | |]|] eqn:Hj; try done.
  destruct (decide (j = i)) as [->|Hne].
  - assert (k' = k) as -> by congruence. by rewrite Hc, Hup.
  - destruct (heap w !! k') as [c'|]; [|done].
    destruct (pluginSetsUp c'); [|done].
    destruct (getConfig c'); simpl; by rewrite list_lookup_insert_ne.
Qed.

Lemma microtasks_keeps w i k c :
  startTasks w !! i = Some (StartAwaitsPluginSetsUp k) ->
  heap w !! k = Some c -> pluginSetsUp c = false ->
  startTasks (microtasks w) !! i = Some (StartAwaitsPluginSetsUp k).
Proof.
  unfold microtasks. generalize (seq 0 (length (startTasks w))). intros l.
  revert w. induction l as [|j l IH]; intros w Hi Hc Hup; [done|].
  simpl. apply (IH _ (startAfterSetsUp_keeps j _ _ _ _ Hi Hc Hup)); [|done].
  by rewrite (proj1 (startAfterSetsUp_frame j w)).
Qed.

Lemma step_setup_frame w :
  heap (step HostSetup w).1 = heap w ++ [pluginSetup newReportingCore]
  /\ setupTasks (step HostSetup w).1 = setupTasks w ++ [SetupAwaitsBuildConfig].
Proof.
  rewrite step_world.
  destruct (microtasks_frame (react HostSetup w).1) as (-> & -> & _ & _).
  change (react HostSetup w) with (setup w). by rewrite setup_world.
Qed.

Lemma step_start_frame w :
  heap (step HostStart w).1 = heap w
  /\ setupTasks (step HostStart w).1 = setupTasks w.
Proof.
  rewrite step_world.
  destruct (microtasks_frame (react HostStart w).1) as (-> & -> & _ & _).
  destruct w as [lg [k|] hp st ss cl]; by segments.
Qed.

Lemma step_start_waits w k c :
  reportingCore w = Some k -> heap w !! k = Some c -> pluginSetsUp c = false ->
  last (startTasks (step HostStart w).1) = Some (StartAwaitsPluginSetsUp k).
Proof.
  intros Hrc Hc Hup. rewrite step_world, last_lookup.
  destruct (microtasks_frame (react HostStart w).1) as (_ & _ & _ & ->).
  assert (startTasks (react HostStart w).1
          = startTasks w ++ [StartAwaitsPluginSetsUp k]) as Hs.
  { destruct w as [lg rc hp st ss cl]. simpl in Hrc. subst rc. by segments. }
  assert (heap (react HostStart w).1 = heap w) as Hh.
  { destruct w as [lg rc hp st ss cl]. simpl in Hrc. subst rc. by segments. }
  rewrite Hs, length_app. simpl.
  replace (Init.Nat.pred (length (startTasks w) + 1)) with (length (startTasks w)) by lia.
  apply (microtasks_keeps _ _ _ c);
    [|rewrite <- Hc; apply (f_equal (fun h => h !! k) Hh)|done].
  etrans; [apply (f_equal (fun ts => ts !! length (startTasks w)) Hs)|].
  by apply list_lookup_middle.
Qed.

Lemma step_keeps_core i w :
  is_Some (reportingCore w) -> is_Some (reportingCore (step i w).1).
Proof.
  intros H. destruct (isHostSetup i) eqn:Hi.
  - destruct i; try done. by rewrite step_setup_reportingCore.
  - by rewrite step_reportingCore.
Qed.

Lemma run_keeps_core mid w :
  is_Some (reportingCore w) -> is_Some (reportingCore (run mid w)).
Proof.
  intros H. induction mid as [|i mid IH] using rev_ind; [done|].
  rewrite run_snoc. by apply step_keeps_core.
Qed.

(** C2: [setup] and [start] are synchronous.  Whatever happened before,
    [setup] returns a contract to its caller, and so does every [start] that
    comes after a [setup]; when [start] follows [setup] immediately, both
    have returned while Config is still unresolved: the background setup is
    suspended on [buildConfig] and the background start on [pluginSetsUp]. *)
Theorem setup_and_start_return_at_once pre mid :
  outcome pre HostSetup = Returned (getStartContract (setupCalls pre))
  /\ outcome (pre ++ [HostSetup]) HostStart
     = Returned (getStartContract (setupCalls pre))
  /\ (exists c, outcome (pre ++ HostSetup :: mid) HostStart = Returned c)
  /\ config <$> heap (run (pre ++ [HostSetup; HostStart]) init) !! setupCalls pre
     = Some None
  /\ setupTasks (run (pre ++ [HostSetup; HostStart]) init) !! setupCalls pre
     = Some SetupAwaitsBuildConfig
  /\ last (startTasks (run (pre ++ [HostSetup; HostStart]) init))
     = Some (StartAwaitsPluginSetsUp (setupCalls pre)).
Proof.
  destruct (reachable_Inv pre) as [HI _].
  pose proof (heap_length_run pre) as Hlen.
  pose proof (inv_tasks _ HI) as Hlen'.
  split; [|split; [|split]].
  - unfold outcome. by rewrite setup_outcome, Hlen.
  - unfold outcome. by rewrite start_outcome, run_snoc, step_setup_reportingCore, Hlen.
  - unfold outcome. rewrite start_outcome.
    destruct (run_keeps_core mid (run (pre ++ [HostSetup]) init)) as [k Hk].
    { by rewrite run_snoc, step_setup_reportingCore. }
    exists (getStartContract k).
    change (HostSetup :: mid) with ([HostSetup] ++ mid).
    by rewrite app_assoc, run_app, Hk.
  - change [HostSetup; HostStart] with ([HostSetup] ++ [HostStart]).
    rewrite app_assoc, run_snoc, run_snoc.
    destruct (step_start_frame (step HostSetup (run pre init)).1) as [-> ->].
    destruct (step_setup_frame (run pre init)) as [Hh Hs]. rewrite Hh, Hs.
    rewrite <- Hlen. split; [|split].
    + by rewrite list_lookup_middle.
    + by rewrite list_lookup_middle.
    + apply (step_start_waits _ _ (pluginSetup newReportingCore)); [| |done].
      * by rewrite step_setup_reportingCore.
      * rewrite Hh. by rewrite list_lookup_middle.
Qed.

Lemma setup_and_start_return_at_once_witness :
  outcome [HostRequest 0] HostSetup = Returned (getStartContract 0)
  /\ outcome ([HostRequest 0] ++ [HostSetup]) HostStart
     = Returned (getStartContract 0).
Proof.
  split;
    [apply (proj1 (setup_and_start_return_at_once [HostRequest 0] []))
    |apply (proj1 (proj2 (setup_and_start_return_at_once [HostRequest 0] [])))].
Defined.

(** ** Failures of the background tasks *)

(** A world in which no more starts wait, and no core has progressed, is as
    quiescent as the one it comes from. *)
Lemma Quiescent_weaken w w' :
  Quiescent w ->
  (forall i k, startTasks w' !! i = Some (StartAwaitsPluginSetsUp k) ->
               startTasks w !! i = Some (StartAwaitsPluginSetsUp k)) ->
  (forall k c, heap w !! k = Some c ->
     exists c', heap w' !! k = Some c' /\ pluginSetsUp c' = pluginSetsUp c) ->
  Quiescent w'.
Proof.
  intros HQ Hs Hh i k Hi. destruct (HQ _ _ (Hs _ _ Hi)) as (c & Hc & Hup).
  destruct (Hh _ _ Hc) as (c' & Hc' & Hup'). exists c'. split; [done|congruence].
Qed.

Lemma settled_start_lookup (ts : list StartTask) j i k :
  (<[j := StartSettled]> ts) !! i = Some (StartAwaitsPluginSetsUp k) ->
  ts !! i = Some (StartAwaitsPluginSetsUp k).
Proof. by intros [(_ & ? & _) | [_ ?]]%list_lookup_insert_Some. Qed.

(** C3, counterexample: [buildConfig] rejects in the background setup; the
    rejection is logged by the [.catch] callback, and the lifecycle of the
    core stays where the synchronous part of [setup] left it: it is not
    [Failed]. *)
Lemma setup_failure_not_Failed :
  raises (BuildConfigSettles 0 (inl (Rejection 1)) None) (run [HostSetup] init)
    = Some (SetupPhase, Rejection 1)
  /\ lifecycleOf 0 (run [HostSetup; BuildConfigSettles 0 (inl (Rejection 1)) None] init)
     = Some SetupInProgress
  /\ lifecycleOf 0 (run [HostSetup; BuildConfigSettles 0 (inl (Rejection 1)) None] init)
     <> Some Failed.
Proof. split; [reflexivity|]. split; [reflexivity | discriminate]. Qed.

Lemma lifecycleOf_never_Failed w k : Inv w -> lifecycleOf k w <> Some Failed.
Proof.
  intros HI. unfold lifecycleOf.
  destruct (heap w !! k) as [c|] eqn:Hc; [|done].
  destruct (inv_core _ HI _ _ Hc) as ([H|[H|H]] & _); simpl; by rewrite H.
Qed.

Lemma failure_segment i w ph e :
  Inv w -> Quiescent w -> raises i w = Some (ph, e) ->
  Quiescent (react i w).1
  /\ logger (react i w).1
     = logger w ++ [LogError (phaseMessage ph); LogErrorObject e]
  /\ (forall k, lifecycleOf k (react i w).1 = lifecycleOf k w)
  /\ (react i w).2 <> Threw e.
Proof.
  intros HI HQ Hr.
  destruct i as [| |k|k r reg|j r|j r]; simpl in Hr; try done.
  - (* line 92 on the absent core *)
    destruct (reportingCore w) eqn:Hrc; simplify_eq.
    cbv [react start]. cbn [reportingCore emit]. rewrite Hrc.
    split; [|split; [|split]].
    + apply (Quiescent_weaken w); [done| |by eauto].
      intros i k [[_ ?]|[_ ?]]%lookup_snoc_Some; done.
    + cbn. by rewrite <- app_assoc.
    + done.
    + cbn. by intros [= ?].
  - (* lines 71 and 74 *)
    destruct (setupTasks w !! k) as [[|]|] eqn:Htask; try done.
    assert (k < length (heap w)) as Hk.
    { rewrite <- (inv_tasks _ HI). by eapply lookup_lt_Some. }
    destruct (lookup_lt_is_Some_2 _ _ Hk) as [c Hc].
    rewrite (react_buildConfig _ _ _ _ Htask). cbn [fst snd].
    rewrite (setupTask_world _ _ _ _ _ Hc).
    split; [|split; [|split]]; try done.
    + destruct r as [e'|cfg]; [|destruct reg as [e'|]]; simplify_eq.
      * by apply (Quiescent_weaken w); [done|done|eauto].
      * apply (Quiescent_weaken w); [done|done|]. cbn. intros k' c' Hc'.
        destruct (decide (k = k')) as [<-|Hne].
        -- exists (setConfig cfg c). rewrite list_lookup_insert_eq by done.
           split; [done|]. by simplify_eq.
        -- exists c'. by rewrite list_lookup_insert_ne.
    + destruct r as [e'|cfg]; [|destruct reg as [e'|]]; simplify_eq;
        cbn; by rewrite <- app_assoc.
    + intros k'. unfold lifecycleOf.
      destruct r as [e'|cfg]; [|destruct reg as [e'|]]; simplify_eq; [done|].
      cbn. destruct (decide (k = k')) as [<-|Hne].
      * by rewrite list_lookup_insert_eq, Hc.
      * by rewrite list_lookup_insert_ne.
  - (* line 95 *)
    destruct r as [e'|]; [|done].
    destruct (startTasks w !! j) as [[| | |]|] eqn:Hj; simplify_eq.
    cbv [react]. rewrite Hj. cbn [fst snd startAfterBrowserDriverFactory].
    split; [|split; [|split]]; try done.
    + apply (Quiescent_weaken w); [done| |by eauto].
      intros i k'. apply settled_start_lookup.
    + cbn. by rewrite <- app_assoc.
  - (* line 97 *)
    destruct r as [e'|]; [|done].
    destruct (startTasks w !! j) as [[| | |]|] eqn:Hj; simplify_eq.
    cbv [react]. rewrite Hj. cbn [fst snd startAfterQueueFactory].
    split; [|split; [|split]]; try done.
    + apply (Quiescent_weaken w); [done| |by eauto].
      intros i k'. apply settled_start_lookup.
    + cbn. by rewrite <- app_assoc.
Qed.

(** C3, amended: every exception raised inside the background setup or the
    background start is caught by the task's [.catch] callback and logged --
    one error line that names the phase, then the error itself -- and it
    never reaches the caller of the segment.  The lifecycle of every core is
    left as it was: no [Failed] state is ever entered. *)
Theorem background_failures_are_logged inputs i ph e :
  raises i (run inputs init) = Some (ph, e) ->
  logger (step i (run inputs init)).1
  = logger (run inputs init) ++ [LogError (phaseMessage ph); LogErrorObject e]
  /\ (forall k, lifecycleOf k (step i (run inputs init)).1
                = lifecycleOf k (run inputs init))
  /\ (forall k, lifecycleOf k (step i (run inputs init)).1 <> Some Failed)
  /\ (step i (run inputs init)).2 <> Threw e.
Proof.
  intros Hr. destruct (reachable_Inv inputs) as [HI HQ].
  destruct (failure_segment _ _ _ _ HI HQ Hr) as (HQ' & Hlog & Hlife & Hout).
  rewrite step_world, step_outcome, (microtasks_idle _ HQ').
  repeat split; try done.
  intros k. rewrite Hlife. by apply lifecycleOf_never_Failed.
Qed.

Lemma background_failures_are_logged_witness :
  logger (step (BrowserDriverFactorySettles 0 (inl (Rejection 4)))
            (run [HostSetup; HostStart; BuildConfigSettles 0 (inr 7) None] init)).1
  = logger (run [HostSetup; HostStart; BuildConfigSettles 0 (inr 7) None] init)
    ++ [LogError (phaseMessage StartPhase); LogErrorObject (Rejection 4)].
Proof.
  apply (background_failures_are_logged
           [HostSetup; HostStart; BuildConfigSettles 0 (inr 7) None]
           (BrowserDriverFactorySettles 0 (inl (Rejection 4)))
           StartPhase (Rejection 4)).
  reflexivity.
Defined.

(** ** A setup that failed stays failed *)

Lemma react_Stuck i w k : Inv w -> Stuck k w -> Stuck k (react i w).1.
Proof.
  intros HI (Hs & c & Hc & Hl).
  assert (pluginSetsUp c = false) as Hup by (unfold pluginSetsUp; by rewrite Hl).
  unfold Stuck. destruct i as [| |k'|k' r reg|j r|j r].
  - change (react HostSetup w) with (setup w). rewrite setup_world.
    split; simpl.
    + rewrite lookup_app_l; [done|]. by eapply lookup_lt_Some.
    + exists c. rewrite lookup_app_l; [done|]. by eapply lookup_lt_Some.
  - assert (heap (react HostStart w).1 = heap w
            /\ setupTasks (react HostStart w).1 = setupTasks w) as [-> ->].
    { destruct w as [lg [?|] hp st ss cl]; by segments. }
    split; [done|by exists c].
  - assert (heap (react (HostRequest k') w).1 = heap w
            /\ setupTasks (react (HostRequest k') w).1 = setupTasks w) as [-> ->].
    { destruct w as [lg rc hp st ss cl]; segments.
      repeat case_match; by simplify_eq/=. }
    split; [done|by exists c].
  - destruct (setupTasks w !! k') as [[|]|] eqn:Htask;
      try (cbv [react]; rewrite Htask; split; [done|by exists c]).
    assert (k' <> k) as Hne by congruence.
    assert (k' < length (heap w)) as Hk'.
    { rewrite <- (inv_tasks _ HI). by eapply lookup_lt_Some. }
    destruct (lookup_lt_is_Some_2 _ _ Hk') as [c' Hc'].
    rewrite (react_buildConfig _ _ _ _ Htask). cbn [fst].
    rewrite (setupTask_world _ _ _ _ _ Hc').
    destruct r as [e|cfg]; [|destruct reg as [e|]]; split; cbn;
      rewrite ?list_lookup_insert_ne by done; try done; by exists c.
  - assert (heap (react (BrowserDriverFactorySettles j r) w).1 = heap w
            /\ setupTasks (react (BrowserDriverFactorySettles j r) w).1
               = setupTasks w) as [-> ->].
    { destruct w as [lg rc hp st ss cl], r; segments;
        repeat case_match; by simplify_eq/=. }
    split; [done|by exists c].
  - destruct (startTasks w !! j) as [[|?|k' bdf|]|] eqn:Hj;
      try (cbv [react]; rewrite Hj; split; [done|by exists c]).
    destruct (awaited_queue_core _ _ _ _ HI Hj) as (c' & Hc' & Hup').
    assert (k' <> k) as Hne by (intros ->; congruence).
    cbv [react]. rewrite Hj. cbn [fst].
    rewrite (startAfterQueueFactory_world _ _ _ _ _ Hc').
    destruct r as [e|q]; split; cbn;
      rewrite ?list_lookup_insert_ne by done; try done; by exists c.
Qed.

Lemma step_Stuck i w k : Inv w -> Stuck k w -> Stuck k (step i w).1.
Proof.
  intros HI HS. rewrite step_world. unfold Stuck.
  destruct (microtasks_frame (react i w).1) as (-> & -> & _ & _).
  by apply react_Stuck.
Qed.

Lemma run_Stuck post w k :
  Inv w -> Quiescent w -> Stuck k w -> Stuck k (run post w).
Proof.
  intros HI HQ HS. induction post as [|i post IH] using rev_ind; [done|].
  rewrite run_snoc. apply step_Stuck; [|done]. by apply run_Inv.
Qed.

(** C7, counterexample: Config resolution fails while a background start is
    waiting; afterwards, and after a request was turned away, the lifecycle
    of the core is still [SetupInProgress]: it did not become [Failed]. *)
Lemma config_failure_not_Failed :
  lifecycleOf 0
    (run [HostSetup; HostStart; BuildConfigSettles 0 (inl (Rejection 2)) None;
          HostRequest 0] init)
  = Some SetupInProgress
  /\ lifecycleOf 0
       (run [HostSetup; HostStart; BuildConfigSettles 0 (inl (Rejection 2)) None;
             HostRequest 0] init)
     <> Some Failed.
Proof. split; [reflexivity | discriminate]. Qed.

(** C7, amended: if Config resolution fails in the background setup of a
    core, the lifecycle of that core stays [SetupInProgress] for ever -- it
    becomes neither [Failed] nor [Ready] -- so every later readiness check on
    it is false and its route handler context is [null], and
    [createQueueFactory], which starts the polling, is never called for
    it. *)
Theorem config_failure_is_permanent pre k e reg post :
  setupTasks (run pre init) !! k = Some SetupAwaitsBuildConfig ->
  lifecycleOf k (run (pre ++ BuildConfigSettles k (inl e) reg :: post) init)
    = Some SetupInProgress
  /\ isReady k (run (pre ++ BuildConfigSettles k (inl e) reg :: post) init) = false
  /\ outcome (pre ++ BuildConfigSettles k (inl e) reg :: post) (HostRequest k)
     = Provided None
  /\ ECreateQueueFactory k
       ∉ calls (run (pre ++ BuildConfigSettles k (inl e) reg :: post) init).
Proof.
  intros Htask.
  destruct (reachable_Inv pre) as [HI0 HQ0].
  destruct (reachable_Inv (pre ++ BuildConfigSettles k (inl e) reg :: post))
    as [HI HQ].
  assert (Stuck k (run (pre ++ BuildConfigSettles k (inl e) reg :: post) init))
    as (Hs & c & Hc & Hl).
  { change (BuildConfigSettles k (inl e) reg :: post)
      with ([BuildConfigSettles k (inl e) reg] ++ post).
    rewrite app_assoc, run_app.
    destruct (reachable_Inv (pre ++ [BuildConfigSettles k (inl e) reg])) as [HI1 HQ1].
    apply run_Stuck; [done..|].
    rewrite run_snoc, step_world. unfold Stuck.
    destruct (microtasks_frame
                (react (BuildConfigSettles k (inl e) reg) (run pre init)).1)
      as (-> & -> & _ & _).
    rewrite (react_buildConfig _ _ _ _ Htask). cbn.
    assert (k < length (heap (run pre init))) as Hk.
    { rewrite <- (inv_tasks _ HI0). by eapply lookup_lt_Some. }
    destruct (lookup_lt_is_Some_2 _ _ Hk) as [c Hc].
    destruct (inv_core _ HI0 _ _ Hc) as (_ & _ & _ & Ht & _).
    destruct (Ht Htask) as [_ Hl].
    split; [|by exists c].
    apply list_lookup_insert_eq. by eapply lookup_lt_Some. }
  assert (pluginIsStarted c = false) as Hns.
  { unfold pluginIsStarted. rewrite Hl. done. }
  split; [|split; [|split]].
  - unfold lifecycleOf. by rewrite Hc, <- Hl.
  - unfold isReady. by rewrite Hc.
  - unfold outcome. rewrite step_outcome. cbv [react]. rewrite Hc.
    unfold routeHandlerContext. by rewrite Hns.
  - intros Hq. apply queue_after_setup in Hq; [|apply HI].
    destruct (inv_complete _ HI _ Hq) as (c' & Hc' & Hup).
    assert (c' = c) as -> by congruence.
    unfold pluginSetsUp in Hup. by rewrite Hl in Hup.
Qed.

Lemma config_failure_is_permanent_witness :
  lifecycleOf 0
    (run ([HostSetup; HostStart] ++ BuildConfigSettles 0 (inl (Rejection 2)) None
            :: [HostStart; HostRequest 0]) init)
    = Some SetupInProgress
  /\ isReady 0
       (run ([HostSetup; HostStart] ++ BuildConfigSettles 0 (inl (Rejection 2)) None
               :: [HostStart; HostRequest 0]) init) = false
  /\ outcome ([HostSetup; HostStart] ++ BuildConfigSettles 0 (inl (Rejection 2)) None
                :: [HostStart; HostRequest 0]) (HostRequest 0)
     = Provided None
  /\ ECreateQueueFactory 0
       ∉ calls (run ([HostSetup; HostStart]
                       ++ BuildConfigSettles 0 (inl (Rejection 2)) None
                       :: [HostStart; HostRequest 0]) init).
Proof.
  apply (config_failure_is_permanent [HostSetup; HostStart] 0 (Rejection 2) None
           [HostStart; HostRequest 0]).
  reflexivity.
Defined.

(** ** Exclusive claims *)

Section JobStoreFacts.
Import JobQueue.












End JobStoreFacts.

(** ** The route handler context of a started core *)

(** Once its core is started, the callback of lines 39-46 hands out the
    contract of that core -- the one its own [setup] call allocated, whatever
    [this.reportingCore] is by now -- and leaves no trace: not even a log
    line. *)
Theorem started_gate inputs k :
  isReady k (run inputs init) = true ->
  step (HostRequest k) (run inputs init)
  = (run inputs init, Provided (Some (getStartContract k))).
Proof.
  intros Hr. destruct (reachable_Inv inputs) as [_ HQ].
  unfold isReady in Hr.
  destruct (heap (run inputs init) !! k) as [c|] eqn:Hc; [|done].
  unfold step. cbv [react]. rewrite Hc. unfold routeHandlerContext.
  rewrite Hr. by rewrite microtasks_idle.
Qed.

Lemma started_gate_witness :
  step (HostRequest 0) (run happyPath init)
  = (run happyPath init, Provided (Some (getStartContract 0))).
Proof. apply (started_gate happyPath 0). reflexivity. Defined.

(** ** What readiness guarantees *)

(** A core is only started after the whole bring-up went through for it:
    its Config was resolved and stored, the feature registered, the browser
    driver factory initialized with that Config, the store constructed and
    the queue factory called (lines 71-74, 93-104). *)
Theorem ready_after_full_startup inputs k :
  isReady k (run inputs init) = true ->
  exists cfg,
    configOf k (run inputs init) = Some cfg
    /\ ESetConfig k cfg ∈ calls (run inputs init)
    /\ ERegisterFeature k ∈ calls (run inputs init)
    /\ EInitializeBrowserDriverFactory k cfg ∈ calls (run inputs init)
    /\ ENewReportingStore k ∈ calls (run inputs init)
    /\ ECreateQueueFactory k ∈ calls (run inputs init)
    /\ EPluginStart k ∈ calls (run inputs init).
Proof.
  intros Hr. destruct (reachable_Inv inputs) as [HI _].
  pose proof (inv_calls _ HI) as C.
  unfold isReady in Hr. unfold configOf.
  destruct (heap (run inputs init) !! k) as [c|] eqn:Hc; [|done].
  apply bool_decide_eq_true in Hr.
  destruct (inv_core _ HI _ _ Hc) as (_ & Hs & Hrdy & _ & Hcf & _).
  pose proof (Hrdy Hr) as Hps.
  pose proof (pluginStart_after_queue _ _ C Hps) as Hq.
  pose proof (queue_after_store _ _ C Hq) as Hst.
  destruct (store_after_factory _ _ C Hst) as [cfg Hf].
  destruct (chronicle_earlier _ _ C Hf) as (pre & S & _ & [_ Hset]).
  apply S in Hset.
  destruct (inv_config _ HI _ _ Hset) as (c' & Hc' & Hcfg).
  assert (c' = c) as -> by congruence.
  exists cfg. simpl. repeat split; try done.
  apply setupComplete_after_registerFeature; [done|].
  by apply queue_after_setup.
Qed.

Lemma ready_after_full_startup_witness :
  exists cfg,
    configOf 0 (run happyPath init) = Some cfg
    /\ ESetConfig 0 cfg ∈ calls (run happyPath init)
    /\ ERegisterFeature 0 ∈ calls (run happyPath init)
    /\ EInitializeBrowserDriverFactory 0 cfg ∈ calls (run happyPath init)
    /\ ENewReportingStore 0 ∈ calls (run happyPath init)
    /\ ECreateQueueFactory 0 ∈ calls (run happyPath init)
    /\ EPluginStart 0 ∈ calls (run happyPath init).
Proof. apply (ready_after_full_startup happyPath 0). reflexivity. Defined.

(** The Config that [initializeBrowserDriverFactory] receives (line 95) is
    the one that [buildConfig] resolved to for the same core (lines 71-72):
    it was stored before, it is the only Config ever stored on that core,
    and the core still holds it. *)
Theorem factory_gets_resolved_config inputs k cfg pre post :
  calls (run inputs init) = pre ++ EInitializeBrowserDriverFactory k cfg :: post ->
  ESetConfig k cfg ∈ pre
  /\ (forall cfg', ESetConfig k cfg' ∈ calls (run inputs init) -> cfg' = cfg)
  /\ configOf k (run inputs init) = Some cfg.
Proof.
  intros Heq. destruct (reachable_Inv inputs) as [HI _].
  pose proof (inv_calls _ HI) as C. rewrite Heq in C.
  destruct (chronicle_split _ C _ _ _ eq_refl) as [_ Hset].
  split; [done|].
  destruct (inv_config _ HI k cfg) as (c & Hc & Hcfg).
  { rewrite Heq. member. }
  split.
  - intros cfg' Hin. destruct (inv_config _ HI _ _ Hin) as (c' & Hc' & Hcfg').
    congruence.
  - unfold configOf. by rewrite Hc.
Qed.

Lemma factory_gets_resolved_config_witness :
  ESetConfig 0 7 ∈ happyPrefix ++ [EGetConfig 0]
  /\ (forall cfg', ESetConfig 0 cfg' ∈ calls (run happyPath init) -> cfg' = 7)
  /\ configOf 0 (run happyPath init) = Some 7.
Proof.
  apply (factory_gets_resolved_config happyPath 0 7
           (happyPrefix ++ [EGetConfig 0])
           [ENewReportingStore 0; ECreateQueueFactory 0; EPluginStart 0;
            EStartComplete 0]).
  reflexivity.
Defined.

(** ** Cores only move forward *)

Lemma react_forward i w k c :
  Inv w -> heap w !! k = Some c ->
  exists c', heap (react i w).1 !! k = Some c'
    /\ rank (lifecycle c) <= rank (lifecycle c')
    /\ (forall cfg, config c = Some cfg -> config c' = Some cfg).
Proof.
  intros HI Hc.
  destruct (inv_core _ HI _ _ Hc) as (Hl & _ & _ & Ht & _ & _).
  destruct i as [| |k'|k' r reg|j r|j r].
  - change (react HostSetup w) with (setup w). rewrite setup_world. simpl.
    exists c. rewrite lookup_app_l; [done|]. by eapply lookup_lt_Some.
  - assert (heap (react HostStart w).1 = heap w) as ->.
    { destruct w as [lg [?|] hp st ss cl]; by segments. }
    by exists c.
  - assert (heap (react (HostRequest k') w).1 = heap w) as ->.
    { destruct w as [lg rc hp st ss cl]; segments.
      repeat case_match; by simplify_eq/=. }
    by exists c.
  - destruct (setupTasks w !! k') as [[|]|] eqn:Htask;
      try (cbv [react]; rewrite Htask; by exists c).
    assert (k' < length (heap w)) as Hk'.
    { rewrite <- (inv_tasks _ HI). by eapply lookup_lt_Some. }
    destruct (lookup_lt_is_Some_2 _ _ Hk') as [c' Hc'].
    rewrite (react_buildConfig _ _ _ _ Htask). cbn [fst].
    rewrite (setupTask_world _ _ _ _ _ Hc').
    destruct (decide (k' = k)) as [->|Hne].
    + assert (c' = c) as -> by congruence.
      destruct (Ht Htask) as [Hnone Hlife].
      assert (forall c1, rank (lifecycle c) <= rank (lifecycle c1) ->
                rank (lifecycle c) <= rank (lifecycle c1)
                /\ (forall cfg, config c = Some cfg -> config c1 = Some cfg))
        as Hgo by (intros c1 ?; split; [done|]; by rewrite Hnone).
      destruct r as [e|cfg]; [|destruct reg as [e|]]; cbn.
      * exists c. split; [done|]. by apply Hgo.
      * rewrite list_lookup_insert_eq by done.
        exists (setConfig cfg c). split; [done|]. by apply Hgo.
      * rewrite list_lookup_insert_eq by done.
        exists (registerFeature (setConfig cfg c)). split; [done|].
        apply Hgo. rewrite Hlife. simpl. lia.
    + destruct r as [e|cfg]; [|destruct reg as [e|]]; cbn;
        rewrite ?list_lookup_insert_ne by done; by exists c.
  - assert (heap (react (BrowserDriverFactorySettles j r) w).1 = heap w) as ->.
    { destruct w as [lg rc hp st ss cl], r; segments;
        repeat case_match; by simplify_eq/=. }
    by exists c.
  - destruct (startTasks w !! j) as [[|?|k' bdf|]|] eqn:Hj;
      try (cbv [react]; rewrite Hj; by exists c).
    destruct (awaited_queue_core _ _ _ _ HI Hj) as (c' & Hc' & Hup').
    cbv [react]. rewrite Hj. cbn [fst].
    rewrite (startAfterQueueFactory_world _ _ _ _ _ Hc').
    destruct r as [e|q]; cbn; [by exists c|].
    destruct (decide (k' = k)) as [->|Hne].
    + assert (c' = c) as -> by congruence.
      rewrite list_lookup_insert_eq by (by eapply lookup_lt_Some).
      eexists. split; [done|]. simpl. split; [|done].
      destruct Hl as [-> | [-> | ->]]; simpl; lia.
    + rewrite list_lookup_insert_ne by done. by exists c.
Qed.

Lemma run_forward post w k c :
  Inv w -> Quiescent w -> heap w !! k = Some c ->
  exists c', heap (run post w) !! k = Some c'
    /\ rank (lifecycle c) <= rank (lifecycle c')
    /\ (forall cfg, config c = Some cfg -> config c' = Some cfg).
Proof.
  intros HI HQ Hc. induction post as [|i post IH] using rev_ind.
  - by exists c.
  - destruct IH as (c1 & Hc1 & Hr1 & Hcfg1).
    destruct (run_Inv post w HI HQ) as [HI1 _].
    destruct (react_forward i _ _ _ HI1 Hc1) as (c2 & Hc2 & Hr2 & Hcfg2).
    exists c2. rewrite run_snoc, step_world, (proj1 (microtasks_frame _)).
    split; [done|]. split; [lia|]. auto.
Qed.

(** The lifecycle of a core never regresses, whatever the host and the
    collaborators do next; in particular a core that is started stays
    started: once the route handler context has handed out the contract it
    will do so for ever. *)
Theorem lifecycle_never_regresses pre post k l :
  lifecycleOf k (run pre init) = Some l ->
  (exists l', lifecycleOf k (run (pre ++ post) init) = Some l'
              /\ rank l <= rank l')
  /\ (l = Ready -> isReady k (run (pre ++ post) init) = true).
Proof.
  unfold lifecycleOf, isReady. intros Hl.
  destruct (heap (run pre init) !! k) as [c|] eqn:Hc; simplify_eq/=.
  destruct (reachable_Inv pre) as [HI HQ].
  destruct (run_forward post _ _ _ HI HQ Hc) as (c' & Hc' & Hr & _).
  rewrite run_app, Hc'. simpl. split; [by exists (lifecycle c')|].
  intros Hrdy. rewrite Hrdy in Hr.
  destruct (reachable_Inv (pre ++ post)) as [HI' _].
  rewrite run_app in HI'.
  destruct (inv_core _ HI' _ _ Hc') as ([H|[H|H]] & _);
    rewrite H in Hr; simpl in Hr; try lia.
  unfold pluginIsStarted. by rewrite H.
Qed.

Lemma lifecycle_never_regresses_witness :
  (exists l', lifecycleOf 0 (run (happyPath ++ [HostSetup; HostStart; HostRequest 0]) init)
              = Some l' /\ rank Ready <= rank l')
  /\ (Ready = Ready ->
      isReady 0 (run (happyPath ++ [HostSetup; HostStart; HostRequest 0]) init) = true).
Proof.
  apply (lifecycle_never_regresses happyPath [HostSetup; HostStart; HostRequest 0] 0 Ready).
  reflexivity.
Defined.

(** Config is resolved once per core: [setConfig] (line 72) is the only
    write, in a task that runs once, so a core that holds a Config holds the
    same one for ever. *)
Theorem config_is_resolved_once pre post k cfg :
  configOf k (run pre init) = Some cfg ->
  configOf k (run (pre ++ post) init) = Some cfg.
Proof.
  unfold configOf. intros Hcfg.
  destruct (heap (run pre init) !! k) as [c|] eqn:Hc; simplify_eq/=.
  destruct (reachable_Inv pre) as [HI HQ].
  destruct (run_forward post _ _ _ HI HQ Hc) as (c' & Hc' & _ & Hkeep).
  rewrite run_app, Hc'. simpl. by apply Hkeep.
Qed.

Lemma config_is_resolved_once_witness :
  configOf 0 (run ([HostSetup; BuildConfigSettles 0 (inr 7) None]
                     ++ [BuildConfigSettles 0 (inr 8) None; HostSetup;
                         BuildConfigSettles 1 (inr 9) None]) init)
  = Some 7.
Proof.
  apply (config_is_resolved_once [HostSetup; BuildConfigSettles 0 (inr 7) None]
           [BuildConfigSettles 0 (inr 8) None; HostSetup;
            BuildConfigSettles 1 (inr 9) None] 0 7).
  reflexivity.
Defined.

(** ** Progress of the background start *)

Lemma startAfterSetsUp_other j w i :
  j <> i -> startTasks (startAfterSetsUp j w) !! i = startTasks w !! i.
Proof.
  intros Hne. unfold startAfterSetsUp.
  destruct (startTasks w !! j) as [[k| | |]|]; try done.
  destruct (heap w !! k) as [c|]; [|done].
  destruct (pluginSetsUp c); [|done].
  destruct (getConfig c); simpl; by rewrite list_lookup_insert_ne.
Qed.

Lemma startAfterSetsUp_past j w i k cfg :
  startTasks w !! i = Some (StartAwaitsBrowserDriverFactory k cfg) ->
  startTasks (startAfterSetsUp j w) !! i
  = Some (StartAwaitsBrowserDriverFactory k cfg).
Proof.
  intros Hi. destruct (decide (j = i)) as [->|Hne].
  - unfold startAfterSetsUp. by rewrite Hi.
  - by rewrite startAfterSetsUp_other.
Qed.

Lemma startAfterSetsUp_advances i w k c cfg :
  startTasks w !! i = Some (StartAwaitsPluginSetsUp k) ->
  heap w !! k = Some c -> pluginSetsUp c = true -> config c = Some cfg ->
  startTasks (startAfterSetsUp i w) !! i
  = Some (StartAwaitsBrowserDriverFactory k cfg).
Proof.
  intros Hi Hc Hup Hcfg. unfold startAfterSetsUp, getConfig.
  rewrite Hi, Hc, Hup, Hcfg. simpl.
  apply list_lookup_insert_eq. by eapply lookup_lt_Some.
Qed.

Lemma resume_all_past l w i k cfg :
  startTasks w !! i = Some (StartAwaitsBrowserDriverFactory k cfg) ->
  startTasks (foldl (fun w i => startAfterSetsUp i w) w l) !! i
  = Some (StartAwaitsBrowserDriverFactory k cfg).
Proof.
  revert w. induction l as [|j l IH]; intros w Hi; [done|].
  simpl. by apply IH, startAfterSetsUp_past.
Qed.

Lemma resume_all_advances l w i k c cfg :
  i ∈ l ->
  startTasks w !! i = Some (StartAwaitsPluginSetsUp k) ->
  heap w !! k = Some c -> pluginSetsUp c = true -> config c = Some cfg ->
  startTasks (foldl (fun w i => startAfterSetsUp i w) w l) !! i
  = Some (StartAwaitsBrowserDriverFactory k cfg).
Proof.
  revert w. induction l as [|j l IH]; intros w Hin Hi Hc Hup Hcfg.
  - by apply elem_of_nil in Hin.
  - simpl. destruct (decide (j = i)) as [->|Hne].
    + apply resume_all_past. by eapply startAfterSetsUp_advances.
    + apply elem_of_cons in Hin as [->|Hin]; [done|].
      apply (IH _ Hin); [|by rewrite (proj1 (startAfterSetsUp_frame j w))|done..].
      by rewrite startAfterSetsUp_other.
Qed.

Lemma microtasks_advances w i k c cfg :
  startTasks w !! i = Some (StartAwaitsPluginSetsUp k) ->
  heap w !! k = Some c -> pluginSetsUp c = true -> config c = Some cfg ->
  startTasks (microtasks w) !! i = Some (StartAwaitsBrowserDriverFactory k cfg).
Proof.
  intros Hi. apply resume_all_advances; [|done].
  apply elem_of_seq. apply lookup_lt_Some in Hi. lia.
Qed.

(** When [buildConfig] resolves and the feature registers, every background
    start that was suspended on [pluginSetsUp] for that core (line 92)
    resumes in the same turn of the event loop: it has read the Config and
    is now suspended on [initializeBrowserDriverFactory], called with the
    Config just resolved (lines 93-95). *)
Theorem waiting_starts_resume inputs k cfg i :
  setupTasks (run inputs init) !! k = Some SetupAwaitsBuildConfig ->
  startTasks (run inputs init) !! i = Some (StartAwaitsPluginSetsUp k) ->
  startTasks (run (inputs ++ [BuildConfigSettles k (inr cfg) None]) init) !! i
  = Some (StartAwaitsBrowserDriverFactory k cfg)
  /\ EInitializeBrowserDriverFactory k cfg
       ∈ calls (run (inputs ++ [BuildConfigSettles k (inr cfg) None]) init).
Proof.
  intros Htask Hi. destruct (reachable_Inv inputs) as [HI _].
  assert (k < length (heap (run inputs init))) as Hk.
  { rewrite <- (inv_tasks _ HI). by eapply lookup_lt_Some. }
  destruct (lookup_lt_is_Some_2 _ _ Hk) as [c Hc].
  assert (startTasks (run (inputs ++ [BuildConfigSettles k (inr cfg) None]) init) !! i
          = Some (StartAwaitsBrowserDriverFactory k cfg)) as Hres.
  { rewrite run_snoc, step_world, (react_buildConfig _ _ _ _ Htask). cbn [fst].
    rewrite (setupTask_world _ _ _ _ _ Hc).
    apply (microtasks_advances _ _ _ (registerFeature (setConfig cfg c))); try done.
    cbn. by apply list_lookup_insert_eq. }
  split; [done|].
  destruct (reachable_Inv (inputs ++ [BuildConfigSettles k (inr cfg) None]))
    as [HI' _].
  apply (inv_start _ HI' _ _ Hres).
Qed.

Lemma waiting_starts_resume_witness :
  startTasks (run ([HostSetup; HostStart; HostStart]
                     ++ [BuildConfigSettles 0 (inr 7) None]) init) !! 1
  = Some (StartAwaitsBrowserDriverFactory 0 7)
  /\ EInitializeBrowserDriverFactory 0 7
       ∈ calls (run ([HostSetup; HostStart; HostStart]
                       ++ [BuildConfigSettles 0 (inr 7) None]) init).
Proof.
  apply (waiting_starts_resume [HostSetup; HostStart; HostStart] 0 7 1);
    reflexivity.
Defined.

(** A [start] that is called when the setup of the plugin's core is already
    complete does not hang on [pluginSetsUp]: it returns the contract, and
    in the same turn its background task has read the Config and called
    [initializeBrowserDriverFactory] with it (lines 91-95). *)
Theorem late_start_proceeds inputs k l :
  reportingCore (run inputs init) = Some k ->
  lifecycleOf k (run inputs init) = Some l ->
  rank SetupComplete <= rank l ->
  exists cfg,
    configOf k (run inputs init) = Some cfg
    /\ outcome inputs HostStart = Returned (getStartContract k)
    /\ last (startTasks (run (inputs ++ [HostStart]) init))
       = Some (StartAwaitsBrowserDriverFactory k cfg).
Proof.
  intros Hrc Hl Hrank. destruct (reachable_Inv inputs) as [HI _].
  unfold lifecycleOf in Hl. unfold configOf.
  destruct (heap (run inputs init) !! k) as [c|] eqn:Hc; simplify_eq/=.
  destruct (inv_core _ HI _ _ Hc) as (Hlc & Hs & _).
  assert (pluginSetsUp c = true) as Hup.
  { unfold pluginSetsUp. destruct Hlc as [H|[H|H]]; rewrite H in *; simpl in *;
      (lia || done). }
  destruct (Hs Hup) as [_ [cfg Hcfg]]. exists cfg. split; [done|].
  split; [unfold outcome; by rewrite start_outcome, Hrc|].
  rewrite run_snoc, step_world, last_lookup.
  destruct (microtasks_frame (react HostStart (run inputs init)).1)
    as (_ & _ & _ & ->).
  assert (startTasks (react HostStart (run inputs init)).1
          = startTasks (run inputs init) ++ [StartAwaitsPluginSetsUp k]) as Hst.
  { destruct (run inputs init) as [lg rc hp st ss cl].
    simpl in Hrc. subst rc. by segments. }
  assert (heap (react HostStart (run inputs init)).1 = heap (run inputs init))
    as Hh.
  { destruct (run inputs init) as [lg rc hp st ss cl].
    simpl in Hrc. subst rc. by segments. }
  rewrite Hst, length_app. simpl.
  replace (Init.Nat.pred (length (startTasks (run inputs init)) + 1))
    with (length (startTasks (run inputs init))) by lia.
  apply (microtasks_advances _ _ _ c); try done.
  - etrans; [apply (f_equal
               (fun ts => ts !! length (startTasks (run inputs init))) Hst)|].
    by apply list_lookup_middle.
  - rewrite <- Hc. apply (f_equal (fun h => h !! k) Hh).
Qed.

Lemma late_start_proceeds_witness :
  exists cfg,
    configOf 0 (run [HostSetup; BuildConfigSettles 0 (inr 7) None] init) = Some cfg
    /\ outcome [HostSetup; BuildConfigSettles 0 (inr 7) None] HostStart
       = Returned (getStartContract 0)
    /\ last (startTasks (run ([HostSetup; BuildConfigSettles 0 (inr 7) None]
                                ++ [HostStart]) init))
       = Some (StartAwaitsBrowserDriverFactory 0 cfg).
Proof.
  apply (late_start_proceeds [HostSetup; BuildConfigSettles 0 (inr 7) None]
           0 SetupComplete); [reflexivity | reflexivity | simpl; lia].
Defined.

(** When [createQueueFactory] resolves for a background start (line 97),
    that start calls [pluginStart] and finishes (lines 104-115): the core it
    works for is started, so its route handler context now hands out the
    contract, and the last line of the log is 'Start complete'. *)
Theorem start_completes inputs i k bdf q :
  startTasks (run inputs init) !! i = Some (StartAwaitsQueueFactory k bdf) ->
  isReady k (run (inputs ++ [QueueFactorySettles i (inr q)]) init) = true
  /\ startTasks (run (inputs ++ [QueueFactorySettles i (inr q)]) init) !! i
     = Some StartSettled
  /\ logger (run (inputs ++ [QueueFactorySettles i (inr q)]) init)
     = logger (run inputs init) ++ [LogDebug "Start complete"]
  /\ outcome (inputs ++ [QueueFactorySettles i (inr q)]) (HostRequest k)
     = Provided (Some (getStartContract k)).
Proof.
  intros Hi. destruct (reachable_Inv inputs) as [HI HQ].
  destruct (awaited_queue_core _ _ _ _ HI Hi) as (c & Hc & Hup).
  assert ((react (QueueFactorySettles i (inr q)) (run inputs init)).1
          = {| logger := logger (run inputs init) ++ [LogDebug "Start complete"];
               reportingCore := reportingCore (run inputs init);
               heap := <[k := pluginStart c]> (heap (run inputs init));
               setupTasks := setupTasks (run inputs init);
               startTasks := <[i := StartSettled]> (startTasks (run inputs init));
               calls := calls (run inputs init)
                          ++ [EPluginStart k; EStartComplete k] |}) as Hw.
  { cbv [react]. rewrite Hi. cbn [fst].
    by rewrite (startAfterQueueFactory_world _ _ _ _ _ Hc). }
  assert (run (inputs ++ [QueueFactorySettles i (inr q)]) init
          = (react (QueueFactorySettles i (inr q)) (run inputs init)).1) as Hrun.
  { rewrite run_snoc, step_world. apply microtasks_idle.
    apply (Quiescent_weaken (run inputs init)); [done|..]; rewrite Hw; cbn.
    - intros j k'. apply settled_start_lookup.
    - intros k' c' Hc'. destruct (decide (k = k')) as [<-|Hne].
      + exists (pluginStart c).
        rewrite list_lookup_insert_eq by (by eapply lookup_lt_Some).
        split; [done|]. by simplify_eq.
      + exists c'. by rewrite list_lookup_insert_ne. }
  assert (heap (run (inputs ++ [QueueFactorySettles i (inr q)]) init) !! k
          = Some (pluginStart c)) as Hk.
  { rewrite Hrun, Hw. cbn. apply list_lookup_insert_eq. by eapply lookup_lt_Some. }
  split; [|split; [|split]].
  - unfold isReady. by rewrite Hk.
  - rewrite Hrun, Hw. cbn. apply list_lookup_insert_eq. by eapply lookup_lt_Some.
  - by rewrite Hrun, Hw.
  - unfold outcome. rewrite step_outcome. cbv [react]. by rewrite Hk.
Qed.

Lemma start_completes_witness :
  isReady 0 (run ([HostSetup; HostStart; BuildConfigSettles 0 (inr 7) None;
                   BrowserDriverFactorySettles 0 (inr 3)]
                    ++ [QueueFactorySettles 0 (inr 5)]) init) = true.
Proof.
  apply (start_completes [HostSetup; HostStart; BuildConfigSettles 0 (inr 7) None;
                          BrowserDriverFactorySettles 0 (inr 3)] 0 0 3 5).
  reflexivity.
Defined.

(** ** The synchronous part of setup comes first *)

Lemma app_split_cons {A} (l1 l2 pre post : list A) (x : A) :
  l1 ++ l2 = pre ++ x :: post ->
  (exists post', l1 = pre ++ x :: post')
  \/ (exists pre', pre = l1 ++ pre' /\ l2 = pre' ++ x :: post).
Proof.
  revert pre. induction l1 as [|a l1 IH]; intros pre Heq.
  - right. by exists pre.
  - destruct pre as [|b pre]; simplify_eq/=.
    + left. by exists l1.
    + destruct (IH _ H0) as [[post' ->] | (pre' & -> & ->)].
      * left. by exists post'.
      * right. by exists pre'.
Qed.

Lemma PreludeFirst_other tr es :
  PreludeFirst tr -> (forall k, EBuildConfig k ∉ es) -> PreludeFirst (tr ++ es).
Proof.
  intros HP Hes pre post k Heq.
  destruct (app_split_cons _ _ _ _ _ Heq) as [[post' ->] | (pre' & -> & ->)].
  - by eapply HP.
  - destruct (Hes k). member.
Qed.

Lemma PreludeFirst_setup tr k :
  PreludeFirst tr -> PreludeFirst (tr ++ setupPrelude k ++ [EBuildConfig k]).
Proof.
  intros HP pre post k' Heq.
  destruct (app_split_cons _ _ _ _ _ Heq) as [[post' ->] | (pre' & -> & Hb)].
  - by eapply HP.
  - exists tr. f_equal. unfold setupPrelude in *.
    repeat (destruct pre' as [|? pre']; simplify_eq/=; try done).
Qed.

Lemma react_calls_other i w :
  isHostSetup i = false ->
  exists es, calls (react i w).1 = calls w ++ es /\ (forall k, EBuildConfig k ∉ es).
Proof.
  intros Hi. destruct w as [lg rc hp st ss cl].
  destruct i as [| |k|k [e|cfg] [e'|]|j [e|b]|j [e|q]]; try done; segments;
    repeat case_match; simplify_eq/=;
    first [ by (exists []; rewrite app_nil_r; split; [done | intros ? ?%elem_of_nil])
          | eexists; split; [rewrite <- ?app_assoc; reflexivity
                            | intros k' Hin; by members Hin] ].
Qed.

Lemma run_PreludeFirst inputs : PreludeFirst (calls (run inputs init)).
Proof.
  induction inputs as [|i inputs IH] using rev_ind.
  - intros [|??] ?? Heq; discriminate Heq.
  - rewrite run_snoc, step_world.
    destruct (microtasks_calls (react i (run inputs init)).1) as (es2 & -> & F).
    apply PreludeFirst_other.
    + destruct (isHostSetup i) eqn:Hi.
      * destruct i; try done. change (react HostSetup ?w) with (setup w).
        rewrite setup_world. cbn [calls]. by apply PreludeFirst_setup.
      * destruct (react_calls_other i (run inputs init) Hi) as (es1 & -> & Hes).
        by apply PreludeFirst_other.
    + intros k Hin. by destruct (proj1 (Forall_forall _ _) F _ Hin).
Qed.

Lemma buildConfigs_none es :
  (forall k, EBuildConfig k ∉ es) -> buildConfigs es = [].
Proof.
  intros Hes. induction es as [|e es IH]; [done|].
  assert (buildConfigs es = []) as IH'.
  { apply IH. intros k Hin. apply (Hes k). by right. }
  unfold buildConfigs in *. destruct e; simpl; try exact IH'.
  destruct (Hes k). by left.
Qed.

Lemma run_buildConfigs inputs :
  buildConfigs (calls (run inputs init)) = seq 0 (setupCalls inputs).
Proof.
  induction inputs as [|i inputs IH] using rev_ind; [done|].
  rewrite run_snoc, step_world, setupCalls_snoc.
  destruct (microtasks_calls (react i (run inputs init)).1) as (es2 & -> & F).
  unfold buildConfigs. rewrite omap_app. fold (buildConfigs es2).
  rewrite (buildConfigs_none es2), app_nil_r
    by (intros k Hin; by destruct (proj1 (Forall_forall _ _) F _ Hin)).
  destruct (isHostSetup i) eqn:Hi.
  - destruct i; try done. change (react HostSetup ?w) with (setup w).
    rewrite setup_world. cbn [calls]. rewrite omap_app.
    fold (buildConfigs (calls (run inputs init))).
    rewrite IH, heap_length_run. simpl.
    by rewrite Nat.add_1_r, seq_S.
  - destruct (react_calls_other i (run inputs init) Hi) as (es1 & -> & Hes).
    rewrite omap_app. fold (buildConfigs (calls (run inputs init))).
    fold (buildConfigs es1).
    by rewrite IH, (buildConfigs_none _ Hes), Nat.add_0_r, app_nil_r.
Qed.

(** Config resolution is the last thing [setup] starts: [buildConfig] is
    called once per [setup] call, for the core that this call allocated
    (line 71), and whenever it is called the same [setup] call has just, in
    this order and with nothing in between, allocated the core, registered
    the route handler context and the UI settings, created the router,
    called [pluginSetup] and registered the usage collector and the routes
    (lines 35-67). *)
Theorem buildConfig_after_prelude inputs :
  buildConfigs (calls (run inputs init)) = seq 0 (setupCalls inputs)
  /\ (forall k pre post,
        calls (run inputs init) = pre ++ EBuildConfig k :: post ->
        exists pre', pre = pre' ++ setupPrelude k).
Proof.
  split; [apply run_buildConfigs|].
  intros k pre post Heq. by eapply run_PreludeFirst.
Qed.

Lemma buildConfig_after_prelude_witness :
  exists pre',
    [ESetFieldFormats] ++ setupPrelude 0 = pre' ++ setupPrelude 0.
Proof.
  apply (proj2 (buildConfig_after_prelude [HostStart; HostSetup; HostStart]) 0
           ([ESetFieldFormats] ++ setupPrelude 0)
           [ESetFieldFormats; EPluginSetsUp 0]).
  reflexivity.
Defined.
